(** * Log tailing in the supervisord client: [tailLog] and [logChan]

    A shallow embedding of the two goroutines of [src/process.go] that turn
    the pull-based [supervisor.tailProcess*Log] RPC into a stream of lines:

    - [tailLog] polls the RPC once per tick, keeps the last reported offset,
      trims the first reply to the last [tailLine] lines, slices every later
      reply down to its new bytes, and writes the result into an [io.Pipe];
      a deferred call closes the pipe with an error when the goroutine ends;
    - [logChan] reads the pipe through a [bufio.Reader], one
      [ReadString('\n')] at a time, and forwards what it reads on a channel.

    Go strings are byte sequences ([list ascii]); [int] and [int64] are
    64-bit two's-complement integers, embedded in [Z] with the wrap-around
    written out ([int] is taken to be 64 bits wide, as on amd64 and arm64).
    A run-time panic (index or slice bound out of range, failed type
    assertion) is an explicit outcome. *)

From Stdlib Require Import ZArith Ascii String List Bool Lia.
Import ListNotations.

Local Open Scope Z_scope.

(** ** Go values *)

(** A Go [string]: an immutable sequence of bytes. *)
Definition gostring : Type := list ascii.

(** The byte ['\n']. *)
Definition nl : ascii := "010"%char.

(** A string literal as a Go string. *)
Definition lit (s : string) : gostring := list_ascii_of_string s.

(** [len(s)], an [int]. *)
Definition len (s : gostring) : Z := Z.of_nat (length s).

(** Two's-complement wrap-around of 64-bit integer arithmetic. *)
Definition wrap (z : Z) : Z := (z + 2 ^ 63) mod 2 ^ 64 - 2 ^ 63.

Definition int_range (z : Z) : Prop := - 2 ^ 63 <= z < 2 ^ 63.

Definition sub64 (a b : Z) : Z := wrap (a - b).
Definition add64 (a b : Z) : Z := wrap (a + b).

(** The dynamic values an XML-RPC reply is decoded into ([[]any]). *)
Inductive any : Type :=
| VString (s : gostring)
| VInt64 (n : Z)
| VBool (b : bool)
| VNil.

(** Go [error] values.  [io.EOF] and the two context errors are sentinels
    compared by identity; every other error is identified with its
    description. *)
Inductive error : Type :=
| io_EOF
| context_Canceled
| context_DeadlineExceeded
| errors_New (msg : gostring).

(** [err.Error()]. *)
Definition Error (e : error) : gostring :=
  match e with
  | io_EOF => lit "EOF"
  | context_Canceled => lit "context canceled"
  | context_DeadlineExceeded => lit "context deadline exceeded"
  | errors_New msg => msg
  end.

(** [err == io.EOF]. *)
Definition is_EOF (e : error) : bool :=
  match e with
  | io_EOF => true
  | _ => false
  end.

(** ** The pieces of package [strings] and of slicing that [tailLog] uses *)

(** [strings.Count(s, "\n")]. *)
Fixpoint Count (s : gostring) : Z :=
  match s with
  | [] => 0
  | c :: s' => (if Ascii.eqb c nl then 1 else 0) + Count s'
  end.

(** Split [s] after its first newline: the line with its terminator, and
    what follows.  [None] when [s] holds no newline. *)
Fixpoint cut (s : gostring) : option (gostring * gostring) :=
  match s with
  | [] => None
  | c :: s' =>
      if Ascii.eqb c nl then Some ([c], s')
      else match cut s' with
           | Some (line, rest) => Some (c :: line, rest)
           | None => None
           end
  end.

(** The loop of [strings.genSplit] with [sepSave = 1]: at most [k] pieces
    are split off, the remainder is the last piece. *)
Fixpoint splitAfter (k : nat) (s : gostring) : list gostring :=
  match k with
  | O => [s]
  | S k' =>
      match cut s with
      | Some (line, rest) => line :: splitAfter k' rest
      | None => [s]
      end
  end.

(** [strings.SplitAfterN(s, "\n", n)]: [nil] for [n = 0], every piece for
    [n < 0], at most [n] pieces otherwise. *)
Definition SplitAfterN (s : gostring) (n : Z) : list gostring :=
  if n =? 0 then []
  else if n <? 0 then splitAfter (length s) s
  else splitAfter (Z.to_nat (n - 1)) s.

(** [a[i]]: [None] stands for the index-out-of-range panic. *)
Definition index {A : Type} (a : list A) (i : Z) : option A :=
  if i <? 0 then None else nth_error a (Z.to_nat i).

(** [s[lo:]]: [None] stands for the slice-bounds-out-of-range panic. *)
Definition slice_from (s : gostring) (lo : Z) : option gostring :=
  if (lo <? 0) || (len s <? lo) then None
  else Some (skipn (Z.to_nat lo) s).

(** ** [tailLog]: one poll *)

Definition defaultReadLogBufSize : Z := 8 * 1024.

(** The buffer size sent with every call, lines 188-190. *)
Definition effective_readBufSize (readBufSize : Z) : Z :=
  if readBufSize =? 0 then defaultReadLogBufSize else readBufSize.

(** What the body of the [case <-t.C] branch does with a reply, up to the
    write into the pipe. *)
Inductive poll_result : Type :=
| Continue                                (* [continue]: chunk is no string *)
| Deliver (offset : Z) (data : gostring)  (* reaches [if len(data) > 0] *)
| Panic.                                  (* run-time panic *)

(** The reply handling of [tailLog], lines 217-235, with the [offset] held
    by the goroutine and the reply [ret] of a successful RPC call. *)
Definition tailLog_poll (tailLine offset : Z) (ret : list any) : poll_result :=
  match index ret 0 with
  | None => Panic
  | Some (VString data) =>
      if offset =? 0 then
        (* first read *)
        match index ret 1 with
        | Some (VInt64 offset') =>
            let lineCount := Count data in
            if lineCount >? tailLine then
              match index (SplitAfterN data (add64 (sub64 lineCount tailLine) 1))
                          (sub64 lineCount tailLine) with
              | Some data' => Deliver offset' data'
              | None => Panic
              end
            else Deliver offset' data
        | _ => Panic
        end
      else
        match index ret 1 with
        | Some (VInt64 newOffset) =>
            if sub64 newOffset offset >? 0 then
              let dataOffset := sub64 (len data) (sub64 newOffset offset) in
              match slice_from data dataOffset with
              | Some data' => Deliver newOffset data'
              | None => Panic
              end
            else Deliver offset data
        | _ => Panic
        end
  | Some _ => Continue
  end.

(** ** [tailLog]: the polling goroutine *)

(** What one iteration of the [for]/[select] loop meets.  The script of a
    run lists, iteration by iteration, which [select] case fires and what
    the environment answers:
    - [ctx_Done e]: [<-ctx.Done()] fires; [e] is [ctx.Err()];
    - [t_C call ctxErr write]: the ticker fires; [call] is the outcome of
      [p.rpc.Call] (an error, or the decoded reply), [ctxErr] is what
      [ctx.Err()] returns should the deferred call consult it during this
      iteration, and [write] is the error of [w.Write] should the write be
      reached ([None]: the reader took the bytes). *)
Inductive event : Type :=
| ctx_Done (e : error)
| t_C (call : error + list any) (ctxErr : option error) (write : option error).

(** How the goroutine stands at the end of a script. *)
Inductive pipe_end : Type :=
| Polling (offset : Z)          (* still in its [select]; pipe open *)
| CloseWithError (e : error)    (* returned; the deferred call closed the pipe *)
| Crash (e : error).            (* panicked; the deferred call closed the pipe,
                                   then the run time aborts the program *)

(** The deferred function of [tailLog], lines 196-206: [err] is the
    captured variable, [ctxErr] is [ctx.Err()]; the result is the argument
    of [w.CloseWithError]. *)
Definition deferred (err ctxErr : option error) : error :=
  match err with
  | Some e => e
  | None =>
      match ctxErr with
      | Some c => c
      | None => errors_New (lit "tail log quit")
      end
  end.

(** The loop of [tailLog], lines 208-242: the chunks written into the pipe,
    in order, and how the goroutine ends.  [err] is [nil] whenever the
    [select] is reached: the RPC call and the write return as soon as they
    set it. *)
Fixpoint tailLog_loop (tailLine offset : Z) (script : list event)
  : list gostring * pipe_end :=
  match script with
  | [] => ([], Polling offset)
  | ctx_Done e :: _ => ([], CloseWithError (deferred None (Some e)))
  | t_C (inl e) ctxErr _ :: _ => ([], CloseWithError (deferred (Some e) ctxErr))
  | t_C (inr ret) ctxErr write :: script' =>
      match tailLog_poll tailLine offset ret with
      | Continue => tailLog_loop tailLine offset script'
      | Panic => ([], Crash (deferred None ctxErr))
      | Deliver offset' data =>
          if len data >? 0 then
            match write with
            | Some e => ([], CloseWithError (deferred (Some e) ctxErr))
            | None =>
                let (written, fin) := tailLog_loop tailLine offset' script' in
                (data :: written, fin)
            end
          else tailLog_loop tailLine offset' script'
      end
  end.

(** [tailLog]: the goroutine starts with [offset = 0]. *)
Definition tailLog (tailLine : Z) (script : list event)
  : list gostring * pipe_end :=
  tailLog_loop tailLine 0 script.

(** ** [logChan]: the line-splitting goroutine *)

(** The outcome of [br.ReadString('\n')] on the pipe. *)
Inductive read_result : Type :=
| Line (line buf : gostring) (pending : list gostring)  (* [err == nil] *)
| Failed (partial : gostring) (e : error)   (* the bytes read before [e] *)
| Blocked.                                  (* pipe open and drained *)

(** [bufio.Reader.ReadString('\n')] over the read side of the pipe: [buf]
    holds the bytes already read and not yet returned, [pending] the writes
    not yet read, [closing] the error the pipe was closed with, if it was.
    The bytes up to and including the first newline are returned; when the
    pipe's error comes first, it is returned with the bytes read so far. *)
Fixpoint ReadString (buf : gostring) (pending : list gostring)
                    (closing : option error) : read_result :=
  match cut buf with
  | Some (line, buf') => Line line buf' pending
  | None =>
      match pending with
      | chunk :: pending' => ReadString (buf ++ chunk) pending' closing
      | [] =>
          match closing with
          | Some e => Failed buf e
          | None => Blocked
          end
      end
  end.

(** How the output channel stands. *)
Inductive chan_end : Type :=
| Receiving     (* open; the goroutine waits for bytes *)
| Closed        (* [close(ch)] ran *)
| Sleeping      (* open; the goroutine still loops when the fuel ends *)
| Aborted.      (* the program died of a panic *)

(** The loop of [logChan], lines 253-264: the entries sent on [ch], in
    order, for a consumer that keeps receiving.  A pipe closed with
    [io.EOF] answers every later read with [io.EOF] again. *)
Fixpoint logChan_loop (fuel : nat) (buf : gostring) (pending : list gostring)
                      (closing : option error) : list gostring * chan_end :=
  match fuel with
  | O => ([], Sleeping)
  | S fuel' =>
      match ReadString buf pending closing with
      | Line line buf' pending' =>
          let (sent, fin) := logChan_loop fuel' buf' pending' closing in
          (line :: sent, fin)
      | Failed _ e =>
          if is_EOF e then logChan_loop fuel' [] [] closing
          else ([Error e], Closed)
      | Blocked => ([], Receiving)
      end
  end.

(** [logChan]: both goroutines together.  The pipe is unbuffered, so every
    chunk [tailLog] wrote has been read when the pipe is closed.  After a
    panic in [tailLog] the deferred call still closes the pipe, but the run
    time then aborts the whole program; whether the description passed to
    the close is forwarded before that is a scheduling race, and the model
    records the lines of the bytes written and the abort. *)
Definition logChan (fuel : nat) (tailLine : Z) (script : list event)
  : list gostring * chan_end :=
  match tailLog tailLine script with
  | (written, Polling _) => logChan_loop fuel [] written None
  | (written, CloseWithError e) => logChan_loop fuel [] written (Some e)
  | (written, Crash _) => (fst (logChan_loop fuel [] written None), Aborted)
  end.

(** ** Specification-side notions *)

(** A complete line: bytes without a newline, then one newline. *)
Definition is_line (l : gostring) : Prop :=
  exists body, l = body ++ [nl] /\ Count body = 0.

(** What is left of [s] after its [k]-th newline. *)
Fixpoint after_newlines (k : nat) (s : gostring) {struct s} : gostring :=
  match k with
  | O => s
  | S k' =>
      match s with
      | [] => []
      | c :: s' =>
          if Ascii.eqb c nl then after_newlines k' s' else after_newlines k s'
      end
  end.

(** The naive computation of the last [K] of a list of lines. *)
Definition keep_last_lines (K : nat) (ls : list gostring) : list gostring :=
  skipn (length ls - K) ls.

(** The last [n] bytes of [s]. *)
Definition last_bytes (n : nat) (s : gostring) : gostring :=
  skipn (length s - n) s.

(** The bytes of [log] from position [lo] up to position [hi]. *)
Definition between (lo hi : Z) (log : gostring) : gostring :=
  firstn (Z.to_nat (hi - lo)) (skipn (Z.to_nat lo) log).

(** A snapshot [(chunk, endOffset)] of an append-only log: [endOffset] is a
    position of the log and [chunk] is a suffix of the bytes before it. *)
Definition snapshot_of (log : gostring) (s : gostring * Z) : Prop :=
  0 <= snd s <= len log /\
  last_bytes (length (fst s)) (firstn (Z.to_nat (snd s)) log) = fst s.

(** The polls that follow a poll which ended at [prev]: each is a snapshot
    of the log, no end offset goes back, and each chunk holds every byte
    appended since the poll before it. *)
Inductive session (log : gostring) : Z -> list (gostring * Z) -> Prop :=
| session_nil (prev : Z) : session log prev []
| session_cons (prev : Z) (s : gostring * Z) (later : list (gostring * Z)) :
    snapshot_of log s ->
    prev <= snd s ->
    snd s - prev <= len (fst s) ->
    session log (snd s) later ->
    session log prev (s :: later).

(** Every poll that reports no advance returns an empty chunk. *)
Fixpoint idle_polls_empty (prev : Z) (later : list (gostring * Z)) : Prop :=
  match later with
  | [] => True
  | s :: later' =>
      (snd s = prev -> fst s = []) /\ idle_polls_empty (snd s) later'
  end.

(** The end offset of the last poll. *)
Definition end_of (first : Z) (later : list (gostring * Z)) : Z :=
  last (map snd later) first.

(** A first-poll chunk as the specification describes its trim: everything
    when it holds at most [K] newlines, else what follows newline number
    [count - K]. *)
Definition seed (K : Z) (data : gostring) : gostring :=
  if Count data >? K then after_newlines (Z.to_nat (Count data - K)) data
  else data.

(** A well-formed reply of the tail RPC: chunk, end offset, overflow flag. *)
Definition reply (chunk : gostring) (endOffset : Z) : list any :=
  [VString chunk; VInt64 endOffset; VBool false].

(** A tick whose RPC call succeeds and whose write is taken by the reader. *)
Definition poll (s : gostring * Z) : event :=
  t_C (inr (reply (fst s) (snd s))) None None.

(** A string the Go run time can hold and count the lines of: shorter than
    the largest [int]. *)
Definition fits (s : gostring) : Prop := len s < 2 ^ 63 - 1.

(** [s] read as lines: the complete lines [ls], then an unterminated rest
    [r]. *)
Definition split_lines (s : gostring) (ls : list gostring) (r : gostring)
  : Prop :=
  s = concat ls ++ r /\ Forall is_line ls /\ Count r = 0.

(** The no-duplication property as the specification words it, read in its
    favour: the first poll reports a nonzero end offset, every poll returns
    a suffix of the log ending at its end offset, end offsets never go
    back, and every chunk holds the bytes appended since the poll before.
    Then the chunks written, put together, are the seed of the first poll
    followed by the bytes appended since. *)
Definition no_duplication_as_stated : Prop :=
  forall (tailLine : Z) (log : gostring) (first : gostring * Z)
         (later : list (gostring * Z)),
    0 <= tailLine -> fits log -> snd first <> 0 ->
    snapshot_of log first -> session log (snd first) later ->
    concat (fst (tailLog tailLine (map poll (first :: later))))
    = seed tailLine (fst first)
      ++ between (snd first) (end_of (snd first) later) log.

(** ** Sample data *)

(** [s] followed by a newline. *)
Definition line (s : string) : gostring := lit s ++ [nl].

(** The chunks of the three-poll scenario: ["a\nb\nc\n"] and ["b\nc\nd\n"]. *)
Definition chunk_abc : gostring := line "a" ++ line "b" ++ line "c".
Definition chunk_bcd : gostring := line "b" ++ line "c" ++ line "d".

(** The log of the three-poll scenario when the second poll is made:
    ["a\nb\nc\nd\n"]. *)
Definition log_abcd : gostring := line "a" ++ line "b" ++ line "c" ++ line "d".

(** ** [tailLog]: the requests it sends *)

(** The arguments of one [p.rpc.Call(method, []any{name, offset,
    readBufSize}, &ret)]. *)
Record tail_request : Type := {
  req_method : gostring;
  req_name : gostring;
  req_offset : Z;
  req_size : Z
}.

(** The calls the loop of [tailLog] makes over a script, in order: one per
    tick, with the offset held when the tick fires, until the goroutine
    ends. *)
Fixpoint tailLog_requests (method name : gostring)
         (readBufSize tailLine offset : Z) (script : list event)
  : list tail_request :=
  match script with
  | [] => []
  | ctx_Done _ :: _ => []
  | t_C call _ write :: script' =>
      {| req_method := method; req_name := name; req_offset := offset;
         req_size := effective_readBufSize readBufSize |}
      :: match call with
         | inl _ => []
         | inr ret =>
             match tailLog_poll tailLine offset ret with
             | Continue =>
                 tailLog_requests method name readBufSize tailLine offset script'
             | Panic => []
             | Deliver offset' data =>
                 if len data >? 0 then
                   match write with
                   | Some _ => []
                   | None =>
                       tailLog_requests method name readBufSize tailLine
                                        offset' script'
                   end
                 else
                   tailLog_requests method name readBufSize tailLine
                                    offset' script'
             end
         end
  end.

(** The method names of [TailStdoutLog] and [TailStderrLog], lines 269-275. *)
Definition tailProcessStdoutLog : gostring :=
  lit "supervisor.tailProcessStdoutLog".
Definition tailProcessStderrLog : gostring :=
  lit "supervisor.tailProcessStderrLog".

(** Every end offset a script reports is a file position. *)
Definition reports_position (ev : event) : Prop :=
  match ev with
  | t_C (inr (_ :: VInt64 n :: _)) _ _ => 0 <= n < 2 ^ 63
  | _ => True
  end.

(** The event hands the error [e] to the goroutine: as [ctx.Err()] at a
    cancellation, as the error of the RPC call, or as the error of the
    write. *)
Definition supplies (e : error) (ev : event) : Prop :=
  match ev with
  | ctx_Done e' => e' = e
  | t_C (inl e') _ _ => e' = e
  | t_C (inr _) _ (Some e') => e' = e
  | t_C (inr _) _ None => False
  end.

(** A list of integers that never goes down. *)
Fixpoint nondecreasing (l : list Z) : Prop :=
  match l with
  | [] => True
  | a :: l' =>
      match l' with
      | [] => True
      | b :: _ => a <= b
      end /\ nondecreasing l'
  end.

(** ** Process control: the replies *)

(** The state names of process.go, lines 17-24. *)
Definition Stopped : gostring := lit "STOPPED".
Definition Starting : gostring := lit "STARTING".
Definition Running : gostring := lit "RUNNING".
Definition Backoff : gostring := lit "BACKOFF".
Definition Stopping : gostring := lit "STOPPING".
Definition Exited : gostring := lit "EXITED".
Definition Fatal : gostring := lit "FATAL".
Definition Unknown : gostring := lit "UNKNOWN".

(** [a == b] on strings. *)
Definition eqs (a b : gostring) : bool :=
  if list_eq_dec ascii_dec a b then true else false.

Module ProcessInfo.
Record t : Type := Build {
  Name : gostring;
  Group : gostring;
  Description : gostring;
  Start : Z;
  Stop : Z;
  Now : Z;
  State : Z;
  StateName : gostring;
  SpawnErr : gostring;
  ExitStatus : Z;
  LogFile : gostring;
  StdoutLogFile : gostring;
  StderrLogFile : gostring;
  Pid : Z
}.
End ProcessInfo.

Module StartStopRet.
Record t : Type := Build {
  Description : gostring;
  Name : gostring;
  Group : gostring;
  Status : Z
}.
End StartStopRet.

Definition StartStopAllRet : Type := list StartStopRet.t.

(** [IsAllSuccess], lines 54-61: the loop returns [false] at the first entry
    whose status is not 80. *)
Fixpoint IsAllSuccess (s : StartStopAllRet) : bool :=
  match s with
  | [] => true
  | r :: s' =>
      if negb (StartStopRet.Status r =? 80) then false else IsAllSuccess s'
  end.

(** ** Process control: the connection *)

(** The calls [Process] makes, one constructor per method name, with the
    argument sent. *)
Inductive request : Type :=
| getProcessInfo (name : gostring)
| startProcess (name : gostring)
| stopProcess (name : gostring)
| startAllProcesses
| stopAllProcesses
| getAllProcessInfo
| reloadConfig
| addProcessGroup (name : gostring)
| removeProcessGroup (name : gostring).

(** The type of the variable a reply is decoded into; [unit] where the
    call passes [nil]. *)
Definition ret_type (r : request) : Type :=
  match r with
  | getProcessInfo _ => ProcessInfo.t
  | startAllProcesses | stopAllProcesses => StartStopAllRet
  | getAllProcessInfo => list ProcessInfo.t
  | reloadConfig => list (list (list gostring))
  | _ => unit
  end.

(** The result of running a method: it returns, or it panics. *)
Inductive outcome (A : Type) : Type :=
| Returns (a : A)
| Panicked.

Arguments Returns {A} a.
Arguments Panicked {A}.

(** A Go map from strings to string slices, as the list of its bindings. *)
Definition gomap : Type := list (gostring * list gostring).

(** [m[k] = v]. *)
Fixpoint map_set (k : gostring) (v : list gostring) (m : gomap) : gomap :=
  match m with
  | [] => [(k, v)]
  | (k', v') :: m' =>
      if eqs k k' then (k, v) :: m' else (k', v') :: map_set k v m'
  end.

(** [v, ok := m[k]]. *)
Fixpoint map_get (k : gostring) (m : gomap) : option (list gostring) :=
  match m with
  | [] => None
  | (k', v') :: m' => if eqs k k' then Some v' else map_get k m'
  end.

Section Rpc.

(** The supervisor behind the connection: [serve r s] is what
    [p.rpc.Call] with request [r] leaves in the reply variable, the error
    it returns, and the supervisor afterwards. *)
Variable server : Type.
Variable serve :
  forall r : request, server -> (ret_type r * option error) * server.

(** The supervisor, and the requests sent so far. *)
Definition world : Type := (server * list request)%type.

Definition M (A : Type) : Type := world -> outcome A * world.

Definition done {A : Type} (a : A) : M A := fun w => (Returns a, w).

Definition panic {A : Type} : M A := fun w => (Panicked, w).

Definition bind {A B : Type} (c : M A) (k : A -> M B) : M B :=
  fun w =>
    match c w with
    | (Returns a, w') => k a w'
    | (Panicked, w') => (Panicked, w')
    end.

Local Notation "x <- c ;; k" := (bind c (fun x => k))
  (at level 61, c at next level, right associativity).

(** [p.rpc.Call(method, args, &ret)]. *)
Definition Call (r : request) : M (ret_type r * option error) :=
  fun w =>
    let (v, s) := serve r (fst w) in (Returns v, (s, snd w ++ [r])).

(** [Info], lines 120-123. *)
Definition Info (name : gostring) : M (ProcessInfo.t * option error) :=
  Call (getProcessInfo name).

(** [Status], lines 112-118. *)
Definition Status (name : gostring) : M (gostring * option error) :=
  x <- Info name ;;
  match snd x with
  | Some e => done ([], Some e)
  | None => done (ProcessInfo.StateName (fst x), None)
  end.

(** [Start], lines 67-76. *)
Definition Start (name : gostring) : M (option error) :=
  x <- Status name ;;
  match snd x with
  | Some e => done (Some e)
  | None =>
      if negb (eqs (fst x) Running) && negb (eqs (fst x) Starting)
      then y <- Call (startProcess name) ;; done (snd y)
      else done None
  end.

(** [Stop], lines 86-95. *)
Definition Stop (name : gostring) : M (option error) :=
  x <- Status name ;;
  match snd x with
  | Some e => done (Some e)
  | None =>
      if eqs (fst x) Running || eqs (fst x) Starting
      then y <- Call (stopProcess name) ;; done (snd y)
      else done None
  end.

(** [Restart], lines 105-110. *)
Definition Restart (name : gostring) : M (option error) :=
  e <- Stop name ;;
  match e with
  | Some _ => done e
  | None => Start name
  end.

(** [StartAll], lines 78-84. *)
Definition StartAll : M (StartStopAllRet * bool * option error) :=
  x <- Call startAllProcesses ;;
  match snd x with
  | Some e => done (fst x, false, Some e)
  | None => done (fst x, IsAllSuccess (fst x), None)
  end.

(** [StopAll], lines 97-103. *)
Definition StopAll : M (StartStopAllRet * bool * option error) :=
  x <- Call stopAllProcesses ;;
  match snd x with
  | Some e => done (fst x, false, Some e)
  | None => done (fst x, IsAllSuccess (fst x), None)
  end.

(** [Reread], lines 131-137: added, changed, removed.  The three index
    expressions panic on a reply without a first row of three lists. *)
Definition Reread
  : M (list gostring * list gostring * list gostring * option error) :=
  x <- Call reloadConfig ;;
  match snd x with
  | Some e => done ([], [], [], Some e)
  | None =>
      match index (fst x) 0 with
      | Some row =>
          match index row 0, index row 1, index row 2 with
          | Some added, Some changed, Some removed =>
              done (added, changed, removed, None)
          | _, _, _ => panic
          end
      | None => panic
      end
  end.

(** [Add], lines 139-141. *)
Definition Add (name : gostring) : M (option error) :=
  y <- Call (addProcessGroup name) ;; done (snd y).

(** [Remove], lines 143-148. *)
Definition Remove (name : gostring) : M (option error) :=
  e <- Stop name ;;
  match e with
  | Some _ => done e
  | None => y <- Call (removeProcessGroup name) ;; done (snd y)
  end.

(** A [for _, name := range names] loop whose body returns at the first
    error. *)
Fixpoint each (f : gostring -> M (option error)) (names : list gostring)
  : M (option error) :=
  match names with
  | [] => done None
  | name :: names' =>
      e <- f name ;;
      match e with
      | Some _ => done e
      | None => each f names'
      end
  end.

(** [Update], lines 150-172. *)
Definition Update : M (gomap * option error) :=
  x <- Reread ;;
  let '(added, changed, removed, err) := x in
  match err with
  | Some e => done ([], Some e)
  | None =>
      let m := map_set (lit "removed") removed
                 (map_set (lit "changed") changed
                    (map_set (lit "added") added [])) in
      e <- each Remove (removed ++ changed) ;;
      match e with
      | Some _ => done (m, e)
      | None => e' <- each Add (added ++ changed) ;; done (m, e')
      end
  end.

End Rpc.

Arguments done {server A} a.
Arguments panic {server A}.
Arguments bind {server A B} c k.

(** Running a method on a supervisor [s] with no request sent yet. *)
Definition run {server A : Type} (c : M server A) (s : server)
  : outcome A * world server :=
  c (s, []).

(** The requests that add or remove a process group. *)
Definition is_group_request (r : request) : bool :=
  match r with
  | addProcessGroup _ | removeProcessGroup _ => true
  | _ => false
  end.

(** ** The RPC client and the local log file (unnamed sources) *)

(** [strings.HasPrefix(s, prefix)], with what follows the prefix. *)
Fixpoint strip_prefix (prefix s : gostring) : option gostring :=
  match prefix with
  | [] => Some s
  | p :: prefix' =>
      match s with
      | [] => None
      | c :: s' => if Ascii.eqb p c then strip_prefix prefix' s' else None
      end
  end.

(** [strings.TrimPrefix(s, prefix)]. *)
Definition TrimPrefix (s prefix : gostring) : gostring :=
  match strip_prefix prefix s with
  | Some rest => rest
  | None => s
  end.

(** What the XML-RPC client is built over: the unix socket it dials, or the
    URL it posts to, with the basic-auth credentials if any. *)
Inductive client : Type :=
| unix_client (path : gostring)
| http_client (url : gostring) (auth : option (gostring * gostring)).

(** [RpcClient]; [rpc] is [None] for a nil client. *)
Record RpcClient : Type := {
  rpc : option client;
  configFile : gostring;
  httpServer_url : gostring;
  httpServer_username : gostring;
  httpServer_password : gostring;
  unixSock_path : gostring
}.

(** [RpcConfig], as [ParseRpcConfig] fills it. *)
Record RpcConfig : Type := {
  ServerUrl : gostring;
  Username : gostring;
  Password : gostring;
  SockPath : gostring
}.

(** [&RpcClient{}]. *)
Definition zero_client : RpcClient :=
  {| rpc := None; configFile := []; httpServer_url := [];
     httpServer_username := []; httpServer_password := [];
     unixSock_path := [] |}.

Definition DefaultSupervisordConfigFile : gostring :=
  lit "/etc/supervisord.conf".

Definition WithDefaultConfigFile (c : RpcClient) : RpcClient :=
  {| rpc := rpc c; configFile := DefaultSupervisordConfigFile;
     httpServer_url := httpServer_url c;
     httpServer_username := httpServer_username c;
     httpServer_password := httpServer_password c;
     unixSock_path := unixSock_path c |}.

Definition WithConfigFile (path : gostring) (c : RpcClient) : RpcClient :=
  {| rpc := rpc c; configFile := path;
     httpServer_url := httpServer_url c;
     httpServer_username := httpServer_username c;
     httpServer_password := httpServer_password c;
     unixSock_path := unixSock_path c |}.

Definition WithUnixSock (path : gostring) (c : RpcClient) : RpcClient :=
  {| rpc := rpc c; configFile := configFile c;
     httpServer_url := httpServer_url c;
     httpServer_username := httpServer_username c;
     httpServer_password := httpServer_password c;
     unixSock_path := path |}.

Definition WithHttpServer (url username password : gostring) (c : RpcClient)
  : RpcClient :=
  {| rpc := rpc c; configFile := configFile c;
     httpServer_url := TrimPrefix url (lit "http://");
     httpServer_username := username;
     httpServer_password := password;
     unixSock_path := unixSock_path c |}.

(** [r.rpc = ...], the other fields kept. *)
Definition set_rpc (c : RpcClient) (x : option client) : RpcClient :=
  {| rpc := x; configFile := configFile c;
     httpServer_url := httpServer_url c;
     httpServer_username := httpServer_username c;
     httpServer_password := httpServer_password c;
     unixSock_path := unixSock_path c |}.

(** The URL [initHttpRpcClient] formats: ["http://%s/RPC2"]. *)
Definition http_rpc_url (url : gostring) : gostring :=
  lit "http://" ++ url ++ lit "/RPC2".

(** The URL [initUnixSockRpcClient] passes. *)
Definition unix_rpc_url : gostring := lit "http://127.0.0.1/RPC2".

(** The error [initRpcClient] ends with. *)
Definition init_error : error :=
  errors_New (lit "init rpc client error: inet_http_server is disabled or find unix sock path failed").

Section Client.

(** [xmlrpc.NewClient] as far as the client depends on it: the error it
    returns for a URL, [None] when the client is built. *)
Variable NewClient : gostring -> option error.

(** [ParseRpcConfig]: what the file at a path is parsed into, and the
    error. *)
Variable ParseRpcConfig : gostring -> RpcConfig * option error.

(** [initHttpRpcClient]: basic auth only with both a user name and a
    password. *)
Definition initHttpRpcClient (r : RpcClient) : RpcClient * option error :=
  let auth :=
    if negb (eqs (httpServer_username r) [])
       && negb (eqs (httpServer_password r) [])
    then Some (httpServer_username r, httpServer_password r)
    else None in
  match NewClient (http_rpc_url (httpServer_url r)) with
  | Some e => (set_rpc r None, Some e)
  | None =>
      (set_rpc r (Some (http_client (http_rpc_url (httpServer_url r)) auth)),
       None)
  end.

(** [initUnixSockRpcClient]. *)
Definition initUnixSockRpcClient (r : RpcClient) : RpcClient * option error :=
  match NewClient unix_rpc_url with
  | Some e => (set_rpc r None, Some e)
  | None => (set_rpc r (Some (unix_client (unixSock_path r))), None)
  end.

(** The second half of [initRpcClient]: the unix socket first, then HTTP. *)
Definition connect (r : RpcClient) : RpcClient * option error :=
  let try_http (r : RpcClient) :=
    if negb (eqs (httpServer_url r) []) then
      match initHttpRpcClient r with
      | (r', None) => (r', None)
      | (r', Some _) => (r', Some init_error)
      end
    else (r, Some init_error) in
  if negb (eqs (unixSock_path r) []) then
    match initUnixSockRpcClient r with
    | (r', None) => (r', None)
    | (r', Some _) => try_http r'
    end
  else try_http r.

(** [initRpcClient]. *)
Definition initRpcClient (r : RpcClient) : RpcClient * option error :=
  if negb (eqs (configFile r) []) then
    match ParseRpcConfig (configFile r) with
    | (_, Some e) => (r, Some e)
    | (cfg, None) =>
        connect
          {| rpc := rpc r; configFile := configFile r;
             httpServer_url := ServerUrl cfg;
             httpServer_username := Username cfg;
             httpServer_password := Username cfg;
             unixSock_path := TrimPrefix (SockPath cfg) (lit "unix://") |}
    end
  else connect r.

(** [NewRpcClient]. *)
Definition NewRpcClient (opt : RpcClient -> RpcClient)
  : RpcClient * option error :=
  initRpcClient (opt zero_client).

End Client.

(** [-x] on [int64]. *)
Definition neg64 (x : Z) : Z := wrap (- x).

(** [openLogFile] of the local-file variant.  [opened] is the result of
    [os.Open]: its error, or the bytes of the file; [stat] is the size
    [os.Stat] reports for the path, [None] when it fails (its error is
    dropped and [s.Size()] then dereferences nil); [seekErr] is the error of
    a seek to a negative position.  The result is the error returned, or
    the bytes the reader will deliver: those from the position sought. *)
Definition openLogFile (opened : error + gostring) (stat : option Z)
           (seekErr : error) (offset : Z) : outcome (error + gostring) :=
  match opened with
  | inl e => Returns (inl e)
  | inr content =>
      let offset := if offset <? 0 then neg64 offset else offset in
      match stat with
      | None => Panicked
      | Some size =>
          let offset := if size <? offset then size else offset in
          let pos := len content + neg64 offset in
          if pos <? 0 then Returns (inl seekErr)
          else Returns (inr (skipn (Z.to_nat pos) content))
      end
  end.

(** [p] is an initial segment of [l]. *)
Definition is_prefix {A : Type} (p l : list A) : Prop :=
  exists rest, l = p ++ rest.

(** A supervisor for the examples: its state is the list of the processes
    that run; a reload reports the new group ["new"], the changed group
    ["web"] and the removed group ["old"]. *)
Definition sample_info (name state : gostring) : ProcessInfo.t :=
  ProcessInfo.Build name name [] 0 0 0 0 state [] 0 [] [] [] 0.

Definition sample_serve (r : request) (s : list gostring)
  : (ret_type r * option error) * list gostring :=
  match r as r0 return (ret_type r0 * option error) * list gostring with
  | getProcessInfo name =>
      ((sample_info name (if existsb (eqs name) s then Running else Stopped),
        None), s)
  | startProcess name => ((tt, None), name :: s)
  | stopProcess name => ((tt, None), filter (fun n => negb (eqs n name)) s)
  | startAllProcesses => (([], None), s)
  | stopAllProcesses => (([], None), [])
  | getAllProcessInfo => (([], None), s)
  | reloadConfig => (([[[lit "new"]; [lit "web"]; [lit "old"]]], None), s)
  | addProcessGroup _ => ((tt, None), s)
  | removeProcessGroup _ => ((tt, None), s)
  end.

(** What an unreachable supervisor leaves in the reply variable. *)
Definition zero_ret (r : request) : ret_type r :=
  match r as r0 return ret_type r0 with
  | getProcessInfo _ => sample_info [] []
  | startProcess _ => tt
  | stopProcess _ => tt
  | startAllProcesses => []
  | stopAllProcesses => []
  | getAllProcessInfo => []
  | reloadConfig => []
  | addProcessGroup _ => tt
  | removeProcessGroup _ => tt
  end.

(** A connection on which every call fails. *)
Definition down_serve (r : request) (s : unit)
  : (ret_type r * option error) * unit :=
  ((zero_ret r, Some (errors_New (lit "connection refused"))), s).

(** A supervisor that accepts every request and reports every process as
    RUNNING, also after a stop. *)
Definition stuck_serve (r : request) (s : unit)
  : (ret_type r * option error) * unit :=
  match r as r0 return (ret_type r0 * option error) * unit with
  | getProcessInfo name => ((sample_info name Running, None), s)
  | startProcess _ => ((tt, None), s)
  | stopProcess _ => ((tt, None), s)
  | startAllProcesses => (([], None), s)
  | stopAllProcesses => (([], None), s)
  | getAllProcessInfo => (([], None), s)
  | reloadConfig => (([], None), s)
  | addProcessGroup _ => ((tt, None), s)
  | removeProcessGroup _ => ((tt, None), s)
  end.

(** An environment for the examples: every client can be built, and the
    config file names an HTTP server with a user and a password. *)
Definition sample_NewClient (url : gostring) : option error := None.

Definition sample_config : RpcConfig :=
  {| ServerUrl := lit "127.0.0.1:9001"; Username := lit "admin";
     Password := lit "secret"; SockPath := [] |}.

Definition sample_ParseRpcConfig (path : gostring) : RpcConfig * option error :=
  (sample_config, None).


(** ** Process control: what the requests were answered *)

(** The answers (the errors returned) to the requests [d], sent in order to
    a supervisor in state [s], and the supervisor afterwards. *)
Fixpoint served {server : Type}
         (serve : forall r : request,
                    server -> (ret_type r * option error) * server)
         (s : server) (d : list request) : list (option error) * server :=
  match d with
  | [] => ([], s)
  | r :: d' =>
      let (answers, s') := served serve (snd (serve r s)) d' in
      (snd (fst (serve r s)) :: answers, s')
  end.

(** The error [e] a method returns is the first error among the answers
    [answers] to its requests, and that answer is the last: with [e = nil]
    no request failed; otherwise every answer but the last is [nil] and the
    last is [e]. *)
Definition stops_at_first_error (answers : list (option error))
           (e : option error) : Prop :=
  match e with
  | None => Forall (fun a => a = None) answers
  | Some _ =>
      exists init, answers = init ++ [e] /\ Forall (fun a => a = None) init
  end.

(** A method that, when it returns, has sent requests [d] after those sent
    before, leaves the supervisor as serving [d] leaves it, and returns the
    first error it was answered, having stopped there. *)
Definition sound {server A : Type}
           (serve : forall r : request,
                      server -> (ret_type r * option error) * server)
           (c : M server A) (err_of : A -> option error) : Prop :=
  forall s tr,
    match c (s, tr) with
    | (Returns a, (s', tr')) =>
        exists d,
          tr' = tr ++ d /\
          snd (served serve s d) = s' /\
          stops_at_first_error (fst (served serve s d)) (err_of a)
    | (Panicked, _) => True
    end.

(** * Properties *)

(** ** Integer and string lemmas *)

Lemma wrap_id (z : Z) : int_range z -> wrap z = z.
Proof.
  unfold int_range, wrap. intros H.
  rewrite Z.mod_small by lia. lia.
Qed.

Lemma sub64_id (a b : Z) : int_range (a - b) -> sub64 a b = a - b.
Proof. apply wrap_id. Qed.

Lemma add64_id (a b : Z) : int_range (a + b) -> add64 a b = a + b.
Proof. apply wrap_id. Qed.

Lemma gtb_true (a b : Z) : b < a -> (a >? b) = true.
Proof. intros H. rewrite Z.gtb_ltb. apply Z.ltb_lt. exact H. Qed.

Lemma gtb_false (a b : Z) : a <= b -> (a >? b) = false.
Proof. intros H. rewrite Z.gtb_ltb. apply Z.ltb_ge. exact H. Qed.

Lemma len_nonneg (s : gostring) : 0 <= len s.
Proof. unfold len. lia. Qed.

Lemma len_app (s t : gostring) : len (s ++ t) = len s + len t.
Proof. unfold len. rewrite length_app. lia. Qed.

Lemma Count_nonneg (s : gostring) : 0 <= Count s.
Proof.
  induction s as [|c s IH]; simpl; [lia|].
  destruct (Ascii.eqb c nl); lia.
Qed.

Lemma Count_le_len (s : gostring) : Count s <= len s.
Proof.
  unfold len. induction s as [|c s IH]; simpl length; simpl Count; [lia|].
  destruct (Ascii.eqb c nl); lia.
Qed.

Lemma Count_app (s t : gostring) : Count (s ++ t) = Count s + Count t.
Proof.
  induction s as [|c s IH]; simpl; [reflexivity|].
  rewrite IH. lia.
Qed.

Lemma Count_nl : Count [nl] = 1.
Proof. reflexivity. Qed.

Lemma is_line_Count (l : gostring) : is_line l -> Count l = 1.
Proof.
  intros [body [-> H]]. rewrite Count_app, H, Count_nl. reflexivity.
Qed.

Lemma cut_None (s : gostring) : cut s = None -> Count s = 0.
Proof.
  induction s as [|c s IH]; simpl; [reflexivity|].
  destruct (Ascii.eqb c nl); [discriminate|].
  destruct (cut s) as [[l r]|]; [discriminate|].
  intros _. rewrite IH; reflexivity.
Qed.

Lemma cut_Some (s l r : gostring) :
  cut s = Some (l, r) -> s = l ++ r /\ is_line l.
Proof.
  revert l r. induction s as [|c s IH]; simpl; intros l r H; [discriminate|].
  destruct (Ascii.eqb c nl) eqn:E.
  - inversion H; subst. apply Ascii.eqb_eq in E. subst c.
    split; [reflexivity|]. exists []. split; reflexivity.
  - destruct (cut s) as [[l' r']|]; [|discriminate].
    inversion H; subst. destruct (IH l' r eq_refl) as [-> [body [-> Hb]]].
    split; [reflexivity|]. exists (c :: body). split; [reflexivity|].
    simpl. rewrite E, Hb. reflexivity.
Qed.

Lemma cut_line (l s : gostring) : is_line l -> cut (l ++ s) = Some (l, s).
Proof.
  intros [body [-> Hb]]. induction body as [|c body IH]; simpl.
  - reflexivity.
  - simpl in Hb. destruct (Ascii.eqb c nl).
    + pose proof (Count_nonneg body). lia.
    + rewrite IH by lia. reflexivity.
Qed.

Lemma cut_Count (s l r : gostring) :
  cut s = Some (l, r) -> Count s = 1 + Count r.
Proof.
  intros H. apply cut_Some in H as [-> Hl].
  rewrite Count_app, (is_line_Count _ Hl). reflexivity.
Qed.

Lemma after_newlines_nil (k : nat) : after_newlines k [] = [].
Proof. destruct k; reflexivity. Qed.

Lemma after_newlines_0 (s : gostring) : after_newlines 0 s = s.
Proof. destruct s; reflexivity. Qed.

Lemma after_newlines_line (k : nat) (l s : gostring) :
  is_line l -> after_newlines (S k) (l ++ s) = after_newlines k s.
Proof.
  intros [body [-> Hb]]. induction body as [|c body IH].
  - reflexivity.
  - simpl in Hb. change ((c :: body) ++ [nl]) with (c :: (body ++ [nl])).
    simpl app. simpl after_newlines. destruct (Ascii.eqb c nl).
    + pose proof (Count_nonneg body). lia.
    + apply IH. lia.
Qed.

Lemma after_newlines_cut (k : nat) (s l r : gostring) :
  cut s = Some (l, r) -> after_newlines (S k) s = after_newlines k r.
Proof.
  intros H. apply cut_Some in H as [-> Hl]. apply after_newlines_line, Hl.
Qed.

(** The piece of index [k] of a split into [k + 1] pieces is what follows
    the [k]-th newline. *)
Lemma splitAfter_nth (k : nat) (s : gostring) :
  Z.of_nat k <= Count s ->
  nth_error (splitAfter k s) k = Some (after_newlines k s).
Proof.
  revert s. induction k as [|k IH]; intros s H.
  - destruct s; reflexivity.
  - simpl splitAfter. destruct (cut s) as [[l r]|] eqn:E.
    + simpl nth_error. rewrite (after_newlines_cut k s l r E).
      apply IH. rewrite (cut_Count _ _ _ E) in H. lia.
    + apply cut_None in E. lia.
Qed.

Lemma Count_concat_lines (ls : list gostring) :
  Forall is_line ls -> Count (concat ls) = Z.of_nat (length ls).
Proof.
  induction 1 as [|l ls Hl _ IH]; [reflexivity|].
  simpl concat. rewrite Count_app, (is_line_Count _ Hl), IH.
  simpl length. lia.
Qed.

Lemma after_newlines_concat (k : nat) (ls : list gostring) :
  Forall is_line ls -> after_newlines k (concat ls) = concat (skipn k ls).
Proof.
  intros H. revert k. induction H as [|l ls Hl _ IH]; intros k.
  - rewrite skipn_nil. apply after_newlines_nil.
  - destruct k as [|k]; [apply after_newlines_0|].
    simpl concat. rewrite (after_newlines_line k l _ Hl). apply IH.
Qed.

Lemma after_newlines_lines_rest (ls : list gostring) (r : gostring) :
  Forall is_line ls ->
  forall k, (k <= length ls)%nat ->
            after_newlines k (concat ls ++ r) = concat (skipn k ls) ++ r.
Proof.
  induction 1 as [|l ls Hl _ IH]; intros k Hk.
  - replace k with 0%nat by (simpl in Hk; lia). apply after_newlines_0.
  - destruct k as [|k]; [apply after_newlines_0|].
    simpl concat. rewrite <- app_assoc, (after_newlines_line k l _ Hl).
    apply IH. simpl in Hk. lia.
Qed.

Lemma after_newlines_Count (k : nat) (s : gostring) :
  Z.of_nat k <= Count s -> Count (after_newlines k s) = Count s - Z.of_nat k.
Proof.
  revert k. induction s as [|c s IH]; intros k H.
  - simpl in H. rewrite after_newlines_nil. simpl. lia.
  - destruct k as [|k]; [simpl after_newlines; lia|].
    simpl after_newlines. simpl Count in *.
    destruct (Ascii.eqb c nl).
    + rewrite IH by lia. lia.
    + rewrite (IH (S k)) by lia. lia.
Qed.

Lemma after_newlines_suffix (k : nat) (s : gostring) :
  exists pre, s = pre ++ after_newlines k s.
Proof.
  revert k. induction s as [|c s IH]; intros k.
  - exists []. rewrite after_newlines_nil. reflexivity.
  - destruct k as [|k]; [exists []; reflexivity|].
    simpl after_newlines. destruct (Ascii.eqb c nl).
    + destruct (IH k) as [pre E]. exists (c :: pre). simpl. congruence.
    + destruct (IH (S k)) as [pre E]. exists (c :: pre). simpl. congruence.
Qed.

(** ** One poll, case by case *)

Lemma index_0 {A : Type} (a : A) (l : list A) : index (a :: l) 0 = Some a.
Proof. reflexivity. Qed.

Lemma index_1 {A : Type} (a b : A) (l : list A) :
  index (a :: b :: l) 1 = Some b.
Proof. reflexivity. Qed.

Lemma poll_first (tailLine : Z) (data : gostring) (n : Z) (rest : list any) :
  0 <= tailLine -> fits data ->
  tailLog_poll tailLine 0 (VString data :: VInt64 n :: rest)
  = Deliver n (seed tailLine data).
Proof.
  unfold fits. intros Ht Hf. unfold tailLog_poll, seed.
  rewrite index_0, index_1. cbn [Z.eqb].
  pose proof (Count_le_len data) as Hc. pose proof (Count_nonneg data) as Hc0.
  destruct (Count data >? tailLine) eqn:E; [|reflexivity].
  apply Z.gtb_lt in E.
  rewrite sub64_id by (unfold int_range; lia).
  rewrite add64_id by (unfold int_range; lia).
  unfold SplitAfterN, index.
  replace (Count data - tailLine + 1 =? 0) with false by (symmetry; apply Z.eqb_neq; lia).
  replace (Count data - tailLine + 1 <? 0) with false by (symmetry; apply Z.ltb_ge; lia).
  replace (Count data - tailLine <? 0) with false by (symmetry; apply Z.ltb_ge; lia).
  replace (Count data - tailLine + 1 - 1) with (Count data - tailLine) by lia.
  rewrite splitAfter_nth by lia. reflexivity.
Qed.

Lemma splitAfter_length (k : nat) :
  forall s, Z.of_nat (length (splitAfter k s)) <= Count s + 1.
Proof.
  induction k as [|k IH]; intros s; simpl splitAfter.
  - pose proof (Count_nonneg s). simpl length. lia.
  - destruct (cut s) as [[l r]|] eqn:E.
    + rewrite (cut_Count _ _ _ E). specialize (IH r). simpl length. lia.
    + pose proof (Count_nonneg s). simpl length. lia.
Qed.

Lemma SplitAfterN_length (s : gostring) (n : Z) :
  Z.of_nat (length (SplitAfterN s n)) <= Count s + 1.
Proof.
  unfold SplitAfterN. destruct (n =? 0).
  - pose proof (Count_nonneg s). simpl length. lia.
  - destruct (n <? 0); apply splitAfter_length.
Qed.

Lemma index_beyond {A : Type} (a : list A) (i : Z) :
  Z.of_nat (length a) <= i -> index a i = None.
Proof.
  intros H. unfold index. destruct (i <? 0); [reflexivity|].
  apply nth_error_None. lia.
Qed.

(** A negative [tailLine] makes the first poll panic: the index
    [lineCount-tailLine] lies beyond the pieces [SplitAfterN] returns, or
    has wrapped around to a negative number. *)
Lemma poll_first_negative_tailLine (tailLine : Z) (data : gostring) (n : Z)
      (rest : list any) :
  - 2 ^ 63 <= tailLine < 0 -> fits data ->
  tailLog_poll tailLine 0 (VString data :: VInt64 n :: rest) = Panic.
Proof.
  unfold fits. intros Ht Hf. unfold tailLog_poll.
  rewrite index_0, index_1. cbn [Z.eqb].
  pose proof (Count_le_len data) as Hc. pose proof (Count_nonneg data) as Hc0.
  rewrite gtb_true by lia.
  destruct (Z_lt_le_dec (Count data - tailLine) (2 ^ 63)) as [Hs|Hb].
  - rewrite (sub64_id (Count data)) by (unfold int_range; lia).
    rewrite index_beyond; [reflexivity|].
    pose proof (SplitAfterN_length data (add64 (Count data - tailLine) 1)). lia.
  - assert (E : sub64 (Count data) tailLine = Count data - tailLine - 2 ^ 64).
    { unfold sub64, wrap.
      replace (Count data - tailLine + 2 ^ 63)
        with (Count data - tailLine - 2 ^ 63 + 1 * 2 ^ 64) by lia.
      rewrite Z.mod_add by lia. rewrite Z.mod_small by lia. lia. }
    rewrite E. unfold index at 1.
    replace (Count data - tailLine - 2 ^ 64 <? 0) with true
      by (symmetry; apply Z.ltb_lt; lia).
    reflexivity.
Qed.

Lemma poll_no_advance (tailLine offset : Z) (data : gostring) (n : Z)
      (rest : list any) :
  offset <> 0 -> sub64 n offset <= 0 ->
  tailLog_poll tailLine offset (VString data :: VInt64 n :: rest)
  = Deliver offset data.
Proof.
  intros Ho Ha. unfold tailLog_poll. rewrite index_0, index_1.
  apply Z.eqb_neq in Ho. rewrite Ho.
  rewrite gtb_false by exact Ha. reflexivity.
Qed.

Lemma poll_advance (tailLine offset : Z) (data : gostring) (n : Z)
      (rest : list any) :
  offset <> 0 -> fits data -> 0 < sub64 n offset <= len data ->
  tailLog_poll tailLine offset (VString data :: VInt64 n :: rest)
  = Deliver n (last_bytes (Z.to_nat (sub64 n offset)) data).
Proof.
  unfold fits. intros Ho Hf Ha. unfold tailLog_poll.
  rewrite index_0, index_1.
  apply Z.eqb_neq in Ho. rewrite Ho.
  rewrite gtb_true by lia.
  rewrite (sub64_id (len data)) by (unfold int_range; lia).
  unfold slice_from.
  replace (len data - sub64 n offset <? 0) with false
    by (symmetry; apply Z.ltb_ge; lia).
  replace (len data <? len data - sub64 n offset) with false
    by (symmetry; apply Z.ltb_ge; lia).
  cbn [orb]. unfold last_bytes, len. do 2 f_equal. lia.
Qed.

Lemma poll_overrun (tailLine offset : Z) (data : gostring) (n : Z)
      (rest : list any) :
  offset <> 0 -> fits data -> len data < sub64 n offset ->
  tailLog_poll tailLine offset (VString data :: VInt64 n :: rest) = Panic.
Proof.
  unfold fits. intros Ho Hf Ha. unfold tailLog_poll.
  rewrite index_0, index_1.
  apply Z.eqb_neq in Ho. rewrite Ho.
  pose proof (len_nonneg data) as Hl.
  rewrite gtb_true by lia.
  assert (Hr : int_range (sub64 n offset)).
  { unfold sub64, wrap, int_range.
    pose proof (Z.mod_pos_bound (n - offset + 2 ^ 63) (2 ^ 64) ltac:(lia)). lia. }
  unfold int_range in Hr.
  rewrite (sub64_id (len data)) by (unfold int_range; lia).
  unfold slice_from.
  replace (len data - sub64 n offset <? 0) with true
    by (symmetry; apply Z.ltb_lt; lia).
  reflexivity.
Qed.

(** ** Runs of the polling loop *)

Lemma tailLog_loop_app (tailLine : Z) (pre post : list event) :
  forall offset written offset',
    tailLog_loop tailLine offset pre = (written, Polling offset') ->
    tailLog_loop tailLine offset (pre ++ post)
    = (written ++ fst (tailLog_loop tailLine offset' post),
       snd (tailLog_loop tailLine offset' post)).
Proof.
  induction pre as [|ev pre IH]; intros offset written offset' H.
  - simpl in H. inversion H; subst. simpl.
    destruct (tailLog_loop tailLine offset' post); reflexivity.
  - destruct ev as [e|[e|ret] ctxErr write]; simpl in H |- *; try discriminate.
    destruct (tailLog_poll tailLine offset ret) as [|o d|];
      [eauto| |discriminate].
    destruct (len d >? 0); [|eauto].
    destruct write as [e|]; [discriminate|].
    destruct (tailLog_loop tailLine o pre) as [w f] eqn:E.
    inversion H; subst. rewrite (IH o w offset' E). reflexivity.
Qed.

(** ** The line splitter *)

Lemma ReadString_Line (pending : list gostring) (closing : option error) :
  forall buf line buf' pending',
    ReadString buf pending closing = Line line buf' pending' ->
    is_line line /\ buf ++ concat pending = line ++ buf' ++ concat pending'.
Proof.
  induction pending as [|chunk pending IH]; intros buf line buf' pending';
    simpl; destruct (cut buf) as [[l r]|] eqn:E; intros H.
  - inversion H; subst. apply cut_Some in E as [-> Hl].
    split; [exact Hl|]. rewrite <- app_assoc. reflexivity.
  - destruct closing; discriminate.
  - inversion H; subst. apply cut_Some in E as [-> Hl].
    split; [exact Hl|]. rewrite <- app_assoc. reflexivity.
  - apply IH in H as [Hl H]. split; [exact Hl|].
    rewrite <- H, <- app_assoc. reflexivity.
Qed.

Lemma ReadString_Failed (pending : list gostring) (closing : option error) :
  forall buf partial e,
    ReadString buf pending closing = Failed partial e ->
    closing = Some e /\ partial = buf ++ concat pending /\ Count partial = 0.
Proof.
  induction pending as [|chunk pending IH]; intros buf partial e;
    simpl; destruct (cut buf) as [[l r]|] eqn:E; intros H; try discriminate.
  - destruct closing as [e'|]; [|discriminate]. inversion H; subst.
    rewrite app_nil_r. apply cut_None in E. auto.
  - apply IH in H as [Hc [Hp Hn]]. rewrite <- app_assoc in Hp. auto.
Qed.

Lemma ReadString_Blocked (pending : list gostring) (closing : option error) :
  forall buf,
    ReadString buf pending closing = Blocked ->
    closing = None /\ Count (buf ++ concat pending) = 0.
Proof.
  induction pending as [|chunk pending IH]; intros buf;
    simpl; destruct (cut buf) as [[l r]|] eqn:E; intros H; try discriminate.
  - destruct closing as [e'|]; [discriminate|].
    rewrite app_nil_r. apply cut_None in E. auto.
  - apply IH in H as [Hc Hn]. rewrite <- app_assoc in Hn. auto.
Qed.

(** On a pipe closed with an error other than [io.EOF], the loop sends the
    complete lines of the bytes written, then the error's description, and
    closes the channel; the unterminated rest is dropped. *)
Lemma logChan_loop_closed (e : error) (fuel : nat) :
  is_EOF e = false ->
  forall buf pending,
    Count (buf ++ concat pending) < Z.of_nat fuel ->
    exists ls r,
      split_lines (buf ++ concat pending) ls r /\
      logChan_loop fuel buf pending (Some e) = (ls ++ [Error e], Closed).
Proof.
  intros He. induction fuel as [|fuel IH]; intros buf pending Hf.
  - pose proof (Count_nonneg (buf ++ concat pending)). lia.
  - simpl. destruct (ReadString buf pending (Some e)) as [line buf' pending'|p e'|] eqn:R.
    + apply ReadString_Line in R as [Hl Hs].
      destruct (IH buf' pending') as [ls [r [[Hc [Hls Hr]] Hrun]]].
      { rewrite Hs, Count_app, (is_line_Count _ Hl) in Hf. lia. }
      exists (line :: ls), r. split.
      * split; [|split; [constructor; assumption | exact Hr]].
        rewrite Hs, Hc. simpl. rewrite <- app_assoc. reflexivity.
      * rewrite Hrun. reflexivity.
    + apply ReadString_Failed in R as [Hc [Hp Hn]]. inversion Hc; subst e'.
      rewrite He. exists [], p. split; [|reflexivity].
      split; [symmetry; exact Hp | split; [constructor | exact Hn]].
    + apply ReadString_Blocked in R as [Hc _]. discriminate.
Qed.

(** On an open pipe the loop sends the complete lines of the bytes written
    so far and waits, holding the unterminated rest. *)
Lemma logChan_loop_open (fuel : nat) :
  forall buf pending,
    Count (buf ++ concat pending) < Z.of_nat fuel ->
    exists ls r,
      split_lines (buf ++ concat pending) ls r /\
      logChan_loop fuel buf pending None = (ls, Receiving).
Proof.
  induction fuel as [|fuel IH]; intros buf pending Hf.
  - pose proof (Count_nonneg (buf ++ concat pending)). lia.
  - simpl. destruct (ReadString buf pending None) as [line buf' pending'|p e'|] eqn:R.
    + apply ReadString_Line in R as [Hl Hs].
      destruct (IH buf' pending') as [ls [r [[Hc [Hls Hr]] Hrun]]].
      { rewrite Hs, Count_app, (is_line_Count _ Hl) in Hf. lia. }
      exists (line :: ls), r. split.
      * split; [|split; [constructor; assumption | exact Hr]].
        rewrite Hs, Hc. simpl. rewrite <- app_assoc. reflexivity.
      * rewrite Hrun. reflexivity.
    + apply ReadString_Failed in R as [Hc _]. discriminate.
    + apply ReadString_Blocked in R as [_ Hn].
      exists [], (buf ++ concat pending). split; [|reflexivity].
      split; [reflexivity | split; [constructor | exact Hn]].
Qed.

(** A pipe closed with [io.EOF] keeps the loop asleep: the channel is never
    closed and no description is sent. *)
Lemma logChan_loop_EOF (fuel : nat) :
  forall buf pending,
    snd (logChan_loop fuel buf pending (Some io_EOF)) = Sleeping.
Proof.
  induction fuel as [|fuel IH]; intros buf pending; [reflexivity|].
  simpl. destruct (ReadString buf pending (Some io_EOF)) as [line buf' pending'|p e'|] eqn:R.
  - specialize (IH buf' pending').
    destruct (logChan_loop fuel buf' pending' (Some io_EOF)). exact IH.
  - apply ReadString_Failed in R as [Hc _]. inversion Hc; subst e'. apply IH.
  - apply ReadString_Blocked in R as [Hc _]. discriminate.
Qed.

(** The split of a byte sequence into lines and rest is unique. *)
Lemma split_lines_unique (s : gostring) :
  forall ls r ls' r',
    split_lines s ls r -> split_lines s ls' r' -> ls = ls' /\ r = r'.
Proof.
  intros ls. revert s.
  induction ls as [|l ls IH]; intros s r ls' r' [Hs [Hl Hr]] [Hs' [Hl' Hr']].
  - simpl in Hs. destruct ls' as [|l' ls'].
    + simpl in Hs'. split; congruence.
    + apply Forall_inv in Hl'. rewrite <- Hs, Hs' in Hr. simpl in Hr.
      rewrite !Count_app, (is_line_Count l' Hl') in Hr.
      pose proof (Count_nonneg (concat ls')). pose proof (Count_nonneg r'). lia.
  - pose proof (Forall_inv Hl) as Hl1. apply Forall_inv_tail in Hl.
    simpl in Hs. rewrite <- app_assoc in Hs.
    destruct ls' as [|l' ls'].
    + simpl in Hs'. rewrite <- Hs', Hs in Hr'.
      rewrite !Count_app, (is_line_Count l Hl1) in Hr'.
      pose proof (Count_nonneg (concat ls)). pose proof (Count_nonneg r). lia.
    + pose proof (Forall_inv Hl') as Hl1'. apply Forall_inv_tail in Hl'.
      simpl in Hs'. rewrite <- app_assoc in Hs'.
      pose proof (cut_line l (concat ls ++ r) Hl1) as C1.
      pose proof (cut_line l' (concat ls' ++ r') Hl1') as C2.
      rewrite <- Hs in C1. rewrite <- Hs' in C2. rewrite C1 in C2.
      inversion C2 as [[El Er]].
      destruct (IH (concat ls ++ r) r ls' r') as [E1 E2].
      * split; [reflexivity | auto].
      * split; [exact Er | auto].
      * split; congruence.
Qed.

(** ** Sample data *)

Lemma is_line_line_a : is_line (line "a").
Proof. exists (lit "a"). split; reflexivity. Defined.

Lemma is_line_line_b : is_line (line "b").
Proof. exists (lit "b"). split; reflexivity. Defined.

Lemma is_line_line_c : is_line (line "c").
Proof. exists (lit "c"). split; reflexivity. Defined.

(** ** The first poll *)

(** C4.  On the first poll ([offset = 0]) with a line count [tailLine >= 0]:
    a chunk with more than [tailLine] newlines is cut down to what follows
    its newline number [count - tailLine]; a chunk with at most [tailLine]
    newlines is passed whole; for a chunk made of newline-terminated lines
    the result is, byte for byte, the naive last [tailLine] lines; and in
    general it is the last [tailLine] complete lines of the chunk followed
    by the unterminated bytes the chunk ends with, if any. *)
Theorem first_poll_keeps_last_lines
        (tailLine : Z) (data : gostring) (endOffset : Z) (rest : list any) :
  0 <= tailLine -> fits data ->
  let out := tailLog_poll tailLine 0 (VString data :: VInt64 endOffset :: rest) in
  (Count data > tailLine ->
   out = Deliver endOffset
           (after_newlines (Z.to_nat (Count data - tailLine)) data)) /\
  (Count data <= tailLine -> out = Deliver endOffset data) /\
  (forall ls, Forall is_line ls -> data = concat ls ->
   out = Deliver endOffset (concat (keep_last_lines (Z.to_nat tailLine) ls))) /\
  (forall ls r, split_lines data ls r ->
   out = Deliver endOffset
           (concat (keep_last_lines (Z.to_nat tailLine) ls) ++ r)).
Proof.
  intros Ht Hf out. subst out. rewrite (poll_first _ _ _ _ Ht Hf). unfold seed.
  assert (G : forall ls r, split_lines data ls r ->
              Deliver endOffset
                (if Count data >? tailLine
                 then after_newlines (Z.to_nat (Count data - tailLine)) data
                 else data)
              = Deliver endOffset
                  (concat (keep_last_lines (Z.to_nat tailLine) ls) ++ r)).
  { intros ls r [-> [Hls Hr]].
    rewrite Count_app, (Count_concat_lines ls Hls), Hr, Z.add_0_r.
    unfold keep_last_lines.
    destruct (Z.of_nat (length ls) >? tailLine) eqn:E.
    - apply Z.gtb_lt in E. rewrite (after_newlines_lines_rest ls r Hls) by lia.
      do 4 f_equal. lia.
    - rewrite Z.gtb_ltb in E. apply Z.ltb_ge in E.
      replace (length ls - Z.to_nat tailLine)%nat with 0%nat by lia.
      reflexivity. }
  split; [|split; [|split]].
  - intros H. rewrite gtb_true by lia. reflexivity.
  - intros H. rewrite gtb_false by lia. reflexivity.
  - intros ls Hls E. rewrite <- (app_nil_r (concat (keep_last_lines _ ls))).
    apply G. split; [rewrite app_nil_r; exact E | split; [exact Hls | reflexivity]].
  - exact G.
Qed.

Lemma first_poll_keeps_last_lines_witness :
  0 <= 2 /\ fits chunk_abc /\
  tailLog_poll 2 0 (reply chunk_abc 6) = Deliver 6 (line "b" ++ line "c").
Proof.
  assert (H0 : 0 <= 2) by (vm_compute; discriminate).
  assert (Hf : fits chunk_abc) by (vm_compute; reflexivity).
  split; [exact H0 | split; [exact Hf |]].
  exact (proj1 (proj2 (proj2 (first_poll_keeps_last_lines 2 chunk_abc 6
                                 [VBool false] H0 Hf)))
           [line "a"; line "b"; line "c"]
           (Forall_cons _ is_line_line_a
              (Forall_cons _ is_line_line_b
                 (Forall_cons _ is_line_line_c (Forall_nil _))))
           eq_refl).
Defined.

(** C10.  While every reply reports end offset 0 the stored offset stays 0
    and each poll is handled as a first poll: what is written is the
    seed-trimmed chunk (when not empty), never an advance-based slice; the
    first reply with another end offset is seed-trimmed as well, and only
    then is the offset set. *)
Theorem zero_offset_repeats_first_poll
        (tailLine : Z) (chunks : list gostring) (data : gostring) (n : Z) :
  0 <= tailLine -> Forall fits chunks -> fits data ->
  tailLog tailLine (map (fun c => poll (c, 0)) chunks)
  = (filter (fun d => len d >? 0) (map (seed tailLine) chunks), Polling 0) /\
  tailLog tailLine (map (fun c => poll (c, 0)) chunks ++ [poll (data, n)])
  = (filter (fun d => len d >? 0) (map (seed tailLine) (chunks ++ [data])),
     Polling n).
Proof.
  intros Ht Hcs Hd. unfold tailLog.
  assert (H : tailLog_loop tailLine 0 (map (fun c => poll (c, 0)) chunks)
              = (filter (fun d => len d >? 0) (map (seed tailLine) chunks),
                 Polling 0)).
  { induction Hcs as [|c chunks Hc _ IH]; [reflexivity|].
    simpl map. unfold poll at 1, reply. cbn [fst snd tailLog_loop].
    rewrite (poll_first _ _ _ _ Ht Hc). cbn [filter].
    destruct (len (seed tailLine c) >? 0); rewrite IH; reflexivity. }
  split; [exact H|].
  rewrite (tailLog_loop_app _ _ _ _ _ _ H).
  unfold poll, reply. cbn [fst snd tailLog_loop].
  rewrite (poll_first _ _ _ _ Ht Hd), map_app, filter_app. cbn [map filter].
  destruct (len (seed tailLine data) >? 0); reflexivity.
Qed.

Lemma fits_nil : fits [].
Proof. vm_compute. reflexivity. Defined.

Lemma fits_chunk_abc : fits chunk_abc.
Proof. vm_compute. reflexivity. Defined.

Lemma zero_offset_repeats_first_poll_witness :
  tailLog 1 [poll ([], 0); poll ([], 0); poll (chunk_abc, 6)]
  = ([line "c"], Polling 6).
Proof.
  assert (H0 : 0 <= 1) by (vm_compute; discriminate).
  exact (proj2 (zero_offset_repeats_first_poll 1 [[]; []] chunk_abc 6 H0
                  (Forall_cons _ fits_nil (Forall_cons _ fits_nil (Forall_nil _)))
                  fits_chunk_abc)).
Defined.

(** ** Later polls *)

(** C2, as stated, fails: with the stored offset 6 and a reply whose end
    offset is again 6 (advance 0) but whose chunk is ["x"], the chunk is
    written into the pipe once more. *)
Lemma no_advance_writes_chunk_counterexample :
  sub64 6 6 <= 0 /\
  tailLog_poll 1 6 (reply (lit "x") 6) = Deliver 6 (lit "x") /\
  tailLog_loop 1 6 [poll (lit "x", 6)] = ([lit "x"], Polling 6) /\
  fst (tailLog_loop 1 6 [poll (lit "x", 6)]) <> [].
Proof.
  split; [vm_compute; discriminate|].
  split; [reflexivity|]. split; [reflexivity|].
  vm_compute. discriminate.
Qed.

(** C2, amended.  On a poll after the first whose advance is zero or
    negative the stored offset and the chunk are left as they are: the
    chunk itself goes on to the write, so nothing is written exactly when
    the chunk is empty; the goroutine neither fails nor stops, and the loop
    goes on with the same offset. *)
Theorem no_advance_passes_chunk
        (tailLine offset : Z) (data : gostring) (n : Z) (rest : list any)
        (ctxErr : option error) (script : list event) :
  offset <> 0 -> sub64 n offset <= 0 ->
  let ret := VString data :: VInt64 n :: rest in
  tailLog_poll tailLine offset ret = Deliver offset data /\
  (data = [] ->
   forall write,
     tailLog_loop tailLine offset (t_C (inr ret) ctxErr write :: script)
     = tailLog_loop tailLine offset script) /\
  (data <> [] ->
   tailLog_loop tailLine offset (t_C (inr ret) ctxErr None :: script)
   = (data :: fst (tailLog_loop tailLine offset script),
      snd (tailLog_loop tailLine offset script))).
Proof.
  intros Ho Ha ret. subst ret.
  pose proof (poll_no_advance tailLine offset data n rest Ho Ha) as P.
  split; [exact P|]. split.
  - intros -> write. cbn [tailLog_loop]. rewrite P. reflexivity.
  - intros Hd. cbn [tailLog_loop]. rewrite P.
    rewrite gtb_true.
    + destruct (tailLog_loop tailLine offset script); reflexivity.
    + unfold len. destruct data; [congruence | simpl; lia].
Qed.

Lemma no_advance_passes_chunk_witness :
  8 <> 0 /\ sub64 5 8 <= 0 /\
  tailLog_loop 2 8 [t_C (inr (reply [] 5)) None None] = ([], Polling 8).
Proof.
  assert (Ho : 8 <> 0) by discriminate.
  assert (Ha : sub64 5 8 <= 0) by (vm_compute; discriminate).
  split; [exact Ho | split; [exact Ha |]].
  exact (proj1 (proj2 (no_advance_passes_chunk 2 8 [] 5 [VBool false] None [] Ho Ha))
           eq_refl None).
Defined.

(** C3, as stated, fails: in the three-poll scenario (end offsets 6, 8 and
    then 5 after a truncation) the stored offset is still 8 after the third
    poll, not 5. *)
Lemma offset_kept_on_shrink_counterexample :
  tailLog 2 [poll (chunk_abc, 6); poll (chunk_bcd, 8); poll ([], 5)]
  = ([line "b" ++ line "c"; line "d"], Polling 8) /\
  snd (tailLog 2 [poll (chunk_abc, 6); poll (chunk_bcd, 8); poll ([], 5)])
  <> Polling 5.
Proof.
  split; [reflexivity|]. vm_compute. discriminate.
Qed.

(** C3, amended.  On a poll after the first that does not overrun the
    chunk, the stored offset becomes the reported end offset when the
    advance is positive and is left unchanged when the advance is zero or
    negative; for offsets that are file positions this is the larger of the
    two, so the stored offset never goes back. *)
Theorem later_poll_offset
        (tailLine offset : Z) (data : gostring) (n : Z) (rest : list any)
        (ctxErr : option error) :
  offset <> 0 -> fits data -> sub64 n offset <= len data ->
  let run := tailLog_loop tailLine offset
               [t_C (inr (VString data :: VInt64 n :: rest)) ctxErr None] in
  snd run = Polling (if 0 <? sub64 n offset then n else offset) /\
  (0 <= offset < 2 ^ 63 -> 0 <= n < 2 ^ 63 ->
   snd run = Polling (Z.max offset n)).
Proof.
  intros Ho Hf Ha run.
  assert (H : snd run = Polling (if 0 <? sub64 n offset then n else offset)).
  { subst run. cbn [tailLog_loop]. destruct (0 <? sub64 n offset) eqn:E.
    - apply Z.ltb_lt in E. rewrite poll_advance by (auto; lia).
      destruct (len _ >? 0); reflexivity.
    - apply Z.ltb_ge in E. rewrite poll_no_advance by auto.
      destruct (len _ >? 0); reflexivity. }
  split; [exact H|]. intros Hor Hnr. rewrite H.
  rewrite sub64_id by (unfold int_range; lia).
  destruct (0 <? n - offset) eqn:E.
  - apply Z.ltb_lt in E. f_equal. lia.
  - apply Z.ltb_ge in E. f_equal. lia.
Qed.

Lemma later_poll_offset_witness :
  snd (tailLog_loop 2 8 [t_C (inr (reply (lit "xyz") 5)) None None])
  = Polling 8 /\
  snd (tailLog_loop 2 6 [t_C (inr (reply chunk_bcd 8)) None None])
  = Polling 8.
Proof.
  assert (H8 : 8 <> 0) by discriminate.
  assert (H6 : 6 <> 0) by discriminate.
  assert (Hx : fits (lit "xyz")) by (vm_compute; reflexivity).
  assert (Hb : fits chunk_bcd) by (vm_compute; reflexivity).
  assert (A5 : sub64 5 8 <= len (lit "xyz")) by (vm_compute; discriminate).
  assert (A8 : sub64 8 6 <= len chunk_bcd) by (vm_compute; discriminate).
  split.
  - exact (proj1 (later_poll_offset 2 8 (lit "xyz") 5 [VBool false] None H8 Hx A5)).
  - exact (proj1 (later_poll_offset 2 6 chunk_bcd 8 [VBool false] None H6 Hb A8)).
Defined.

(** C5.  On a poll after the first whose advance exceeds the length of the
    chunk, the slice [data[dataOffset:]] has a negative lower bound: the
    poll panics, nothing is written, and the goroutine ends in a crash. *)
Theorem advance_beyond_chunk_panics
        (tailLine offset : Z) (data : gostring) (n : Z) (rest : list any)
        (ctxErr write : option error) (script : list event) :
  offset <> 0 -> fits data -> len data < sub64 n offset ->
  let ret := VString data :: VInt64 n :: rest in
  tailLog_poll tailLine offset ret = Panic /\
  tailLog_loop tailLine offset (t_C (inr ret) ctxErr write :: script)
  = ([], Crash (deferred None ctxErr)).
Proof.
  intros Ho Hf Ha ret. subst ret.
  pose proof (poll_overrun tailLine offset data n rest Ho Hf Ha) as P.
  split; [exact P|]. cbn [tailLog_loop]. rewrite P. reflexivity.
Qed.

Lemma advance_beyond_chunk_panics_witness :
  6 <> 0 /\ len (lit "abcd") < sub64 16 6 /\
  tailLog_poll 2 6 (reply (lit "abcd") 16) = Panic /\
  tailLog_loop 2 6 [poll (lit "abcd", 16)]
  = ([], Crash (errors_New (lit "tail log quit"))).
Proof.
  assert (Ho : 6 <> 0) by discriminate.
  assert (Hf : fits (lit "abcd")) by (vm_compute; reflexivity).
  assert (Ha : len (lit "abcd") < sub64 16 6) by (vm_compute; reflexivity).
  split; [exact Ho | split; [exact Ha |]].
  exact (advance_beyond_chunk_panics 2 6 (lit "abcd") 16 [VBool false]
           None None [] Ho Hf Ha).
Defined.




(** ** The end of a session *)

(** C7.  When [tailLog] ends by closing the pipe with an error (any error
    but [io.EOF], with which a pipe is closed cleanly), [logChan] sends the
    complete lines of the bytes written, then exactly one entry holding
    the error's description, and closes the channel. *)
Theorem close_with_error_sends_description
        (fuel : nat) (tailLine : Z) (script : list event)
        (written : list gostring) (e : error) :
  tailLog tailLine script = (written, CloseWithError e) ->
  is_EOF e = false ->
  Count (concat written) < Z.of_nat fuel ->
  exists ls r,
    split_lines (concat written) ls r /\
    logChan fuel tailLine script = (ls ++ [Error e], Closed).
Proof.
  intros Hrun He Hf. unfold logChan. rewrite Hrun.
  apply (logChan_loop_closed e fuel He [] written). exact Hf.
Qed.

Lemma close_with_error_sends_description_witness :
  exists ls r,
    split_lines (concat [line "b" ++ line "c"]) ls r /\
    logChan 3 2 [poll (chunk_abc, 6);
                 t_C (inl (errors_New (lit "connection refused"))) None None]
    = (ls ++ [lit "connection refused"], Closed).
Proof.
  exact (close_with_error_sends_description 3 2
           [poll (chunk_abc, 6);
            t_C (inl (errors_New (lit "connection refused"))) None None]
           [line "b" ++ line "c"] (errors_New (lit "connection refused"))
           eq_refl eq_refl eq_refl).
Defined.

(** C8, as stated, fails: the bytes ["ab"] written without a newline are
    still buffered when the pipe is closed; the only entry sent is the
    description of the closing error, and ["ab"] is sent nowhere. *)
Lemma partial_line_dropped_counterexample :
  tailLog 1 [poll (lit "ab", 2); ctx_Done context_Canceled]
  = ([lit "ab"], CloseWithError context_Canceled) /\
  logChan 5 1 [poll (lit "ab", 2); ctx_Done context_Canceled]
  = ([lit "context canceled"], Closed) /\
  ~ In (lit "ab") (fst (logChan 5 1 [poll (lit "ab", 2); ctx_Done context_Canceled])).
Proof.
  split; [reflexivity|]. split; [reflexivity|].
  cbv. intros [H|[]]. discriminate H.
Qed.

(** C8, amended.  Whatever the chunks the bytes arrive in, the entries sent
    while the pipe is open are exactly the complete, newline-terminated
    lines of the bytes written so far, the unterminated rest staying
    buffered; when the pipe is then closed with an error, that rest is
    dropped: the same lines are followed by the error's description only. *)
Theorem lines_sent_once_terminated
        (fuel : nat) (written : list gostring) :
  Count (concat written) < Z.of_nat fuel ->
  exists ls r,
    split_lines (concat written) ls r /\
    logChan_loop fuel [] written None = (ls, Receiving) /\
    forall e, is_EOF e = false ->
              logChan_loop fuel [] written (Some e) = (ls ++ [Error e], Closed).
Proof.
  intros Hf.
  destruct (logChan_loop_open fuel [] written Hf) as [ls [r [Hs Hrun]]].
  exists ls, r. split; [exact Hs|]. split; [exact Hrun|].
  intros e He.
  destruct (logChan_loop_closed e fuel He [] written Hf) as [ls' [r' [Hs' Hrun']]].
  destruct (split_lines_unique _ _ _ _ _ Hs Hs') as [-> _]. exact Hrun'.
Qed.

Lemma lines_sent_once_terminated_witness :
  exists ls r,
    split_lines (concat [lit "a"; line "b" ++ lit "c"]) ls r /\
    logChan_loop 2 [] [lit "a"; line "b" ++ lit "c"] None = (ls, Receiving) /\
    forall e, is_EOF e = false ->
              logChan_loop 2 [] [lit "a"; line "b" ++ lit "c"] (Some e)
              = (ls ++ [Error e], Closed).
Proof.
  exact (lines_sent_once_terminated 2 [lit "a"; line "b" ++ lit "c"] eq_refl).
Defined.

(** C9, as stated, fails: a session cancelled by its caller ends with the
    entry ["context canceled"] on the output channel. *)
Lemma cancellation_entry_counterexample :
  logChan 5 2 [poll (chunk_abc, 6); ctx_Done context_Canceled]
  = ([line "b"; line "c"; lit "context canceled"], Closed) /\
  In (Error context_Canceled)
     (fst (logChan 5 2 [poll (chunk_abc, 6); ctx_Done context_Canceled])).
Proof.
  split; [reflexivity|]. cbv. right. right. left. reflexivity.
Qed.

(** C9, amended.  When the [select] of a polling session takes the
    cancellation of the context, the session ends and the cancellation is
    surfaced: after the complete lines of the bytes written, exactly one
    entry holding the description of [ctx.Err()] is sent, and the channel
    is closed; whatever the script holds after that point is not run. *)
Theorem cancellation_sends_description
        (fuel : nat) (tailLine : Z) (pre post : list event)
        (written : list gostring) (offset : Z) (e : error) :
  tailLog tailLine pre = (written, Polling offset) ->
  is_EOF e = false ->
  Count (concat written) < Z.of_nat fuel ->
  tailLog tailLine (pre ++ ctx_Done e :: post) = (written, CloseWithError e) /\
  exists ls r,
    split_lines (concat written) ls r /\
    logChan fuel tailLine (pre ++ ctx_Done e :: post) = (ls ++ [Error e], Closed).
Proof.
  intros Hpre He Hf.
  assert (T : tailLog tailLine (pre ++ ctx_Done e :: post)
              = (written, CloseWithError e)).
  { unfold tailLog in *. rewrite (tailLog_loop_app _ _ _ _ _ _ Hpre).
    cbn [tailLog_loop fst snd deferred]. rewrite app_nil_r. reflexivity. }
  split; [exact T|].
  unfold logChan. rewrite T.
  apply (logChan_loop_closed e fuel He [] written). exact Hf.
Qed.

Lemma cancellation_sends_description_witness :
  tailLog 2 ([poll (chunk_abc, 6)] ++ [ctx_Done context_Canceled])
  = ([line "b" ++ line "c"], CloseWithError context_Canceled) /\
  exists ls r,
    split_lines (concat [line "b" ++ line "c"]) ls r /\
    logChan 3 2 ([poll (chunk_abc, 6)] ++ [ctx_Done context_Canceled])
    = (ls ++ [Error context_Canceled], Closed).
Proof.
  exact (cancellation_sends_description 3 2 [poll (chunk_abc, 6)] []
           [line "b" ++ line "c"] 6 context_Canceled eq_refl eq_refl eq_refl).
Defined.

(** ** A whole session against an append-only log *)

Lemma between_same (n : Z) (log : gostring) : between n n log = [].
Proof. unfold between. rewrite Z.sub_diag. reflexivity. Qed.

Lemma between_app (a b c : Z) (log : gostring) :
  0 <= a <= b -> b <= c -> c <= len log ->
  between a b log ++ between b c log = between a c log.
Proof.
  unfold between, len. intros Hab Hbc Hc.
  replace (Z.to_nat b) with (Z.to_nat (b - a) + Z.to_nat a)%nat by lia.
  rewrite <- skipn_skipn.
  replace (Z.to_nat (c - a)) with (Z.to_nat (b - a) + Z.to_nat (c - b))%nat by lia.
  remember (skipn (Z.to_nat a) log) as l.
  rewrite <- (firstn_skipn (Z.to_nat (b - a)) l) at 3.
  rewrite firstn_app, firstn_firstn, length_firstn.
  assert (Hl : (Z.to_nat (b - a) <= length l)%nat).
  { subst l. rewrite length_skipn. lia. }
  replace (Init.Nat.min (Z.to_nat (b - a) + Z.to_nat (c - b)) (Z.to_nat (b - a)))
    with (Z.to_nat (b - a)) by lia.
  replace (Z.to_nat (b - a) + Z.to_nat (c - b) - Init.Nat.min (Z.to_nat (b - a)) (length l))%nat
    with (Z.to_nat (c - b)) by lia.
  reflexivity.
Qed.

Lemma end_of_cons (prev : Z) (s : gostring * Z) (later : list (gostring * Z)) :
  end_of prev (s :: later) = end_of (snd s) later.
Proof.
  unfold end_of. simpl map. generalize (snd s) as a. generalize prev as d.
  induction (map snd later) as [|b l IH]; intros d a; [reflexivity|].
  change (last (a :: b :: l) d) with (last (b :: l) d).
  rewrite (IH d b), (IH a b). reflexivity.
Qed.

Lemma snapshot_len (log : gostring) (s : gostring * Z) :
  snapshot_of log s -> len (fst s) <= snd s.
Proof.
  unfold snapshot_of, last_bytes, len. intros [Hn Hs].
  apply (f_equal (@length ascii)) in Hs.
  rewrite length_skipn, length_firstn in Hs. lia.
Qed.

(** The last [advance] bytes of a snapshot are the bytes the log gained
    since the previous end offset. *)
Lemma snapshot_new_bytes (log : gostring) (s : gostring * Z) (prev : Z) :
  snapshot_of log s -> 0 <= prev < snd s -> snd s - prev <= len (fst s) ->
  last_bytes (Z.to_nat (snd s - prev)) (fst s) = between prev (snd s) log.
Proof.
  destruct s as [c n]. cbn [fst snd]. intros Hsnap Hp Ha.
  pose proof (snapshot_len log (c, n) Hsnap) as Hl. cbn [fst snd] in Hl.
  destruct Hsnap as [Hn Hs]. cbn [fst snd] in Hn, Hs.
  unfold last_bytes, between, len in *.
  set (F := firstn (Z.to_nat n) log) in *.
  assert (HF : length F = Z.to_nat n).
  { subst F. rewrite length_firstn. lia. }
  replace (skipn (length c - Z.to_nat (n - prev)) c)
    with (skipn (length c - Z.to_nat (n - prev)) (skipn (length F - length c) F))
    by (rewrite Hs; reflexivity).
  rewrite skipn_skipn.
  replace (length c - Z.to_nat (n - prev) + (length F - length c))%nat
    with (Z.to_nat prev) by lia.
  subst F. rewrite skipn_firstn_comm. f_equal. lia.
Qed.

Section Session.

Variable log : gostring.
Variable tailLine : Z.
Hypothesis log_fits : fits log.

(** The polls after the first: what is written is exactly what the log
    gained, and the goroutine keeps polling with the last end offset. *)
Lemma later_polls_deltas (later : list (gostring * Z)) :
  forall prev,
    0 < prev <= len log ->
    session log prev later -> idle_polls_empty prev later ->
    exists written,
      tailLog_loop tailLine prev (map poll later)
      = (written, Polling (end_of prev later)) /\
      concat written = between prev (end_of prev later) log /\
      prev <= end_of prev later <= len log.
Proof.
  unfold fits in log_fits.
  induction later as [|[c n] later IH]; intros prev Hp Hs Hi.
  - exists []. unfold end_of. simpl. rewrite between_same.
    repeat split; lia.
  - inversion Hs as [|? ? ? Hsnap Hle Ha Hrest]; subst.
    destruct Hi as [Hidle Hi]. cbn [fst snd] in *.
    pose proof (snapshot_len log (c, n) Hsnap) as Hl. cbn [fst snd] in Hl.
    pose proof Hsnap as [Hn _]. cbn [fst snd] in Hn.
    pose proof (end_of_cons prev (c, n) later) as Hend. cbn [snd] in Hend.
    destruct (IH n ltac:(lia) Hrest Hi) as [ws [Hrun [Hcat Hb]]].
    rewrite Hend. simpl map. unfold poll at 1, reply.
    cbn [fst snd tailLog_loop].
    destruct (Z.eq_dec n prev) as [->|Hne].
    + rewrite (Hidle eq_refl).
      rewrite poll_no_advance by (try lia; rewrite sub64_id; unfold int_range; lia).
      cbn [len length Z.of_nat Z.gtb Z.compare]. exists ws. auto.
    + assert (HA : sub64 n prev = n - prev)
        by (apply sub64_id; unfold int_range; lia).
      rewrite poll_advance by (unfold fits; rewrite ?HA; lia).
      rewrite HA.
      pose proof (snapshot_new_bytes log (c, n) prev Hsnap) as Hnew.
      cbn [fst snd] in Hnew. rewrite Hnew by lia.
      assert (Hlen : (len (between prev n log) >? 0) = true).
      { rewrite Z.gtb_ltb. apply Z.ltb_lt. unfold len, between.
        rewrite length_firstn, length_skipn. unfold len in *. lia. }
      rewrite Hlen, Hrun.
      exists (between prev n log :: ws). split; [reflexivity|].
      split; [|lia]. simpl concat. rewrite Hcat.
      apply between_app; lia.
Qed.

End Session.

(** C1, as stated, fails: the log is ["a\n"]; the first poll returns it with
    end offset 2, and so does the second poll, before anything is appended.
    The chunk is written twice. *)
Lemma idle_poll_repeats_counterexample :
  tailLog 1 [poll (line "a", 2); poll (line "a", 2)]
  = ([line "a"; line "a"], Polling 2) /\
  ~ no_duplication_as_stated.
Proof.
  split; [reflexivity|]. intros H.
  specialize (H 1 (line "a") (line "a", 2) [(line "a", 2)]).
  assert (Hs : snapshot_of (line "a") (line "a", 2)).
  { split; [split; vm_compute; discriminate | reflexivity]. }
  assert (E : concat (fst (tailLog 1 (map poll [(line "a", 2); (line "a", 2)])))
              = seed 1 (fst (line "a", 2))
                ++ between (snd (line "a", 2))
                     (end_of (snd (line "a", 2)) [(line "a", 2)]) (line "a")).
  { apply H.
    - vm_compute; discriminate.
    - vm_compute; reflexivity.
    - discriminate.
    - exact Hs.
    - apply session_cons; [exact Hs | | | apply session_nil];
        vm_compute; discriminate. }
  vm_compute in E. discriminate E.
Qed.

(** C1, amended.  For a session against an append-only log whose first poll
    reports a nonzero end offset, whose polls each return a suffix of the
    log ending at the reported end offset, with end offsets that never go
    back and chunks that hold the bytes appended since the poll before, and
    whose polls without advance return an empty chunk: the goroutine keeps
    polling, and the chunks it wrote, put together, are the seed of the
    first poll followed by exactly the bytes the log gained between the
    first and the last end offset. *)
Theorem deltas_reproduce_log
        (tailLine : Z) (log : gostring) (first : gostring * Z)
        (later : list (gostring * Z)) :
  0 <= tailLine -> fits log -> snd first <> 0 ->
  snapshot_of log first -> session log (snd first) later ->
  idle_polls_empty (snd first) later ->
  exists written,
    tailLog tailLine (map poll (first :: later))
    = (written, Polling (end_of (snd first) later)) /\
    concat written
    = seed tailLine (fst first)
      ++ between (snd first) (end_of (snd first) later) log.
Proof.
  destruct first as [c n]. cbn [fst snd]. intros Ht Hf Hn Hsnap Hs Hi.
  pose proof (snapshot_len log (c, n) Hsnap) as Hl. cbn [fst snd] in Hl.
  pose proof Hsnap as [Hr _]. cbn [fst snd] in Hr.
  destruct (later_polls_deltas log tailLine Hf later n ltac:(lia) Hs Hi)
    as [ws [Hrun [Hcat _]]].
  unfold tailLog. simpl map. unfold poll at 1, reply. cbn [fst snd tailLog_loop].
  rewrite poll_first by (unfold fits in *; lia).
  destruct (len (seed tailLine c) >? 0) eqn:E; rewrite Hrun.
  - exists (seed tailLine c :: ws). split; [reflexivity|].
    simpl concat. rewrite Hcat. reflexivity.
  - exists ws. split; [reflexivity|]. rewrite Hcat.
    rewrite Z.gtb_ltb in E. apply Z.ltb_ge in E. unfold len in E.
    destruct (seed tailLine c); [reflexivity | simpl in E; lia].
Qed.

Lemma deltas_reproduce_log_witness :
  exists written,
    tailLog 2 [poll (chunk_abc, 6); poll (chunk_bcd, 8); poll ([], 8)]
    = (written, Polling 8) /\
    concat written = (line "b" ++ line "c") ++ line "d".
Proof.
  assert (H0 : 0 <= 2) by (vm_compute; discriminate).
  assert (Hf : fits log_abcd) by (vm_compute; reflexivity).
  assert (Hn : 6 <> 0) by discriminate.
  assert (S1 : snapshot_of log_abcd (chunk_abc, 6)).
  { split; [split; vm_compute; discriminate | reflexivity]. }
  assert (S2 : snapshot_of log_abcd (chunk_bcd, 8)).
  { split; [split; vm_compute; discriminate | reflexivity]. }
  assert (S3 : snapshot_of log_abcd ([], 8)).
  { split; [split; vm_compute; discriminate | reflexivity]. }
  assert (L1 : 6 <= 8) by (vm_compute; discriminate).
  assert (L2 : 8 - 6 <= len chunk_bcd) by (vm_compute; discriminate).
  assert (L3 : 8 <= 8) by (vm_compute; discriminate).
  assert (L4 : 8 - 8 <= len []) by (vm_compute; discriminate).
  assert (I : idle_polls_empty 6 [(chunk_bcd, 8); ([], 8)]).
  { split; [intros E; discriminate E | split; [reflexivity | exact Logic.I]]. }
  exact (deltas_reproduce_log 2 log_abcd (chunk_abc, 6) [(chunk_bcd, 8); ([], 8)]
           H0 Hf Hn S1
           (session_cons log_abcd 6 (chunk_bcd, 8) [([], 8)] S2 L1 L2
              (session_cons log_abcd 8 ([], 8) [] S3 L3 L4
                 (session_nil log_abcd 8)))
           I).
Defined.

(** * Process control *)

Lemma eqs_true (a b : gostring) : eqs a b = true <-> a = b.
Proof.
  unfold eqs. destruct (list_eq_dec ascii_dec a b); split; congruence.
Qed.

Lemma IsAllSuccess_Forall (s : StartStopAllRet) :
  IsAllSuccess s = true <-> Forall (fun r => StartStopRet.Status r = 80) s.
Proof.
  induction s as [|r s IH]; simpl.
  - split; [constructor | reflexivity].
  - destruct (StartStopRet.Status r =? 80) eqn:E; simpl.
    + apply Z.eqb_eq in E. rewrite IH. split.
      * intros H. constructor; assumption.
      * intros H. inversion H; assumption.
    + apply Z.eqb_neq in E. split; [discriminate|].
      intros H. inversion H; contradiction.
Qed.

Section RpcProperties.

Variable server : Type.
Variable serve :
  forall r : request, server -> (ret_type r * option error) * server.

(** X1.  [StartAll] and [StopAll] send their one request and hand the reply
    on; the flag they return is [true] exactly when the call returned no
    error and every entry of the reply has status 80 (so also for a reply
    without entries), and [false] whenever the call failed, whatever the
    reply holds. *)
Theorem StartAll_StopAll_flag (s : server) :
  (exists ret ok err s',
     run (StartAll server serve) s
     = (Returns (ret, ok, err), (s', [startAllProcesses])) /\
     serve startAllProcesses s = ((ret, err), s') /\
     (ok = true <->
      err = None /\ Forall (fun r => StartStopRet.Status r = 80) ret)) /\
  (exists ret ok err s',
     run (StopAll server serve) s
     = (Returns (ret, ok, err), (s', [stopAllProcesses])) /\
     serve stopAllProcesses s = ((ret, err), s') /\
     (ok = true <->
      err = None /\ Forall (fun r => StartStopRet.Status r = 80) ret)).
Proof.
  split.
  - unfold run, StartAll, bind, Call, done. cbn [fst snd].
    destruct (serve startAllProcesses s) as [[ret err] s']. cbn [fst snd].
    destruct err as [e|].
    + exists ret, false, (Some e), s'. repeat split; try discriminate.
      intros [H _]. discriminate H.
    + exists ret, (IsAllSuccess ret), None, s'. repeat split.
      * apply IsAllSuccess_Forall. assumption.
      * intros [_ H]. apply IsAllSuccess_Forall. assumption.
  - unfold run, StopAll, bind, Call, done. cbn [fst snd].
    destruct (serve stopAllProcesses s) as [[ret err] s']. cbn [fst snd].
    destruct err as [e|].
    + exists ret, false, (Some e), s'. repeat split; try discriminate.
      intros [H _]. discriminate H.
    + exists ret, (IsAllSuccess ret), None, s'. repeat split.
      * apply IsAllSuccess_Forall. assumption.
      * intros [_ H]. apply IsAllSuccess_Forall. assumption.
Qed.

(** X2.  For a process whose state query succeeds, exactly one of [Start]
    and [Stop] acts: when the state is RUNNING or STARTING, [Start] returns
    [nil] after the query alone and [Stop] sends [stopProcess]; in every
    other state [Stop] returns [nil] after the query alone and [Start]
    sends [startProcess].  The request that is sent returns its own
    error. *)
Theorem Start_Stop_complementary
        (name : gostring) (s s1 : server) (info : ProcessInfo.t) :
  serve (getProcessInfo name) s = ((info, None), s1) ->
  (ProcessInfo.StateName info = Running \/
   ProcessInfo.StateName info = Starting ->
   run (Start server serve name) s = (Returns None, (s1, [getProcessInfo name])) /\
   run (Stop server serve name) s
   = (Returns (snd (fst (serve (stopProcess name) s1))),
      (snd (serve (stopProcess name) s1),
       [getProcessInfo name; stopProcess name]))) /\
  (ProcessInfo.StateName info <> Running /\
   ProcessInfo.StateName info <> Starting ->
   run (Stop server serve name) s = (Returns None, (s1, [getProcessInfo name])) /\
   run (Start server serve name) s
   = (Returns (snd (fst (serve (startProcess name) s1))),
      (snd (serve (startProcess name) s1),
       [getProcessInfo name; startProcess name]))).
Proof.
  intros Hinfo. unfold run, Start, Stop, Status, Info, bind, Call, done.
  cbn [fst snd]. rewrite Hinfo. cbn [fst snd app]. split.
  - intros H.
    assert (E : eqs (ProcessInfo.StateName info) Running
                || eqs (ProcessInfo.StateName info) Starting = true).
    { apply orb_true_iff. destruct H as [H|H]; [left|right]; apply eqs_true, H. }
    rewrite E. rewrite <- negb_orb, E. cbn [negb]. split; [reflexivity|].
    cbn [fst snd app]. destruct (serve (stopProcess name) s1) as [[u e] s2].
    reflexivity.
  - intros [H1 H2].
    assert (E : eqs (ProcessInfo.StateName info) Running
                || eqs (ProcessInfo.StateName info) Starting = false).
    { apply orb_false_iff. split.
      - destruct (eqs _ Running) eqn:E; [apply eqs_true in E; contradiction | reflexivity].
      - destruct (eqs _ Starting) eqn:E; [apply eqs_true in E; contradiction | reflexivity]. }
    rewrite E. rewrite <- negb_orb, E. cbn [negb]. split; [reflexivity|].
    cbn [fst snd app]. destruct (serve (startProcess name) s1) as [[u e] s2].
    reflexivity.
Qed.

(** X3.  When the state query fails, [Start], [Stop], [Restart] and
    [Remove] all return its error, and no other request is sent: nothing
    is started, stopped or removed. *)
Theorem failed_status_stops_everything
        (name : gostring) (s s1 : server) (info : ProcessInfo.t) (e : error) :
  serve (getProcessInfo name) s = ((info, Some e), s1) ->
  run (Start server serve name) s = (Returns (Some e), (s1, [getProcessInfo name])) /\
  run (Stop server serve name) s = (Returns (Some e), (s1, [getProcessInfo name])) /\
  run (Restart server serve name) s = (Returns (Some e), (s1, [getProcessInfo name])) /\
  run (Remove server serve name) s = (Returns (Some e), (s1, [getProcessInfo name])).
Proof.
  intros Hinfo.
  unfold run, Restart, Remove, Start, Stop, Status, Info, bind, Call, done.
  cbn [fst snd]. rewrite Hinfo. cbn [fst snd app]. repeat split.
Qed.

(** X4.  [Restart] reads the state again after stopping: when the process
    was RUNNING or STARTING, [stopProcess] succeeded, and the supervisor
    still reports RUNNING or STARTING afterwards, [Restart] returns [nil]
    without sending [startProcess].  When [stopProcess] fails, its error is
    returned and neither the second query nor [startProcess] is sent. *)
Theorem Restart_rereads_state
        (name : gostring) (s s1 s2 : server) (info : ProcessInfo.t)
        (stopErr : option error) :
  serve (getProcessInfo name) s = ((info, None), s1) ->
  ProcessInfo.StateName info = Running \/
  ProcessInfo.StateName info = Starting ->
  serve (stopProcess name) s1 = ((tt, stopErr), s2) ->
  (forall e, stopErr = Some e ->
   run (Restart server serve name) s
   = (Returns (Some e), (s2, [getProcessInfo name; stopProcess name]))) /\
  (stopErr = None ->
   forall info' s3,
     serve (getProcessInfo name) s2 = ((info', None), s3) ->
     ProcessInfo.StateName info' = Running \/
     ProcessInfo.StateName info' = Starting ->
     run (Restart server serve name) s
     = (Returns None,
        (s3, [getProcessInfo name; stopProcess name; getProcessInfo name]))).
Proof.
  intros Hinfo Hstate Hstop.
  assert (E : forall i, ProcessInfo.StateName i = Running \/
                        ProcessInfo.StateName i = Starting ->
              eqs (ProcessInfo.StateName i) Running
              || eqs (ProcessInfo.StateName i) Starting = true).
  { intros i H. apply orb_true_iff.
    destruct H as [H|H]; [left|right]; apply eqs_true, H. }
  unfold run, Restart, Start, Stop, Status, Info, bind, Call, done.
  cbn [fst snd]. rewrite Hinfo. cbn [fst snd app].
  rewrite (E info Hstate). cbn [fst snd app]. rewrite Hstop.
  cbn [fst snd app]. split.
  - intros e ->. reflexivity.
  - intros -> info' s3 Hinfo' Hstate'. cbn [fst snd app]. rewrite Hinfo'.
    cbn [fst snd app]. rewrite <- negb_orb, (E info' Hstate'). reflexivity.
Qed.

End RpcProperties.

Lemma Start_Stop_complementary_witness :
  run (Start _ sample_serve (lit "web")) [lit "web"]
  = (Returns None, ([lit "web"], [getProcessInfo (lit "web")])) /\
  run (Stop _ sample_serve (lit "web")) []
  = (Returns None, ([], [getProcessInfo (lit "web")])).
Proof.
  split.
  - exact (proj1 (proj1 (Start_Stop_complementary _ sample_serve (lit "web")
                           [lit "web"] [lit "web"]
                           (sample_info (lit "web") Running) eq_refl)
                    (or_introl eq_refl))).
  - assert (H : ProcessInfo.StateName (sample_info (lit "web") Stopped) <> Running /\
                ProcessInfo.StateName (sample_info (lit "web") Stopped) <> Starting)
      by (split; discriminate).
    exact (proj1 (proj2 (Start_Stop_complementary _ sample_serve (lit "web")
                           [] [] (sample_info (lit "web") Stopped) eq_refl) H)).
Defined.

Lemma failed_status_stops_everything_witness :
  run (Restart _ down_serve (lit "web")) tt
  = (Returns (Some (errors_New (lit "connection refused"))),
     (tt, [getProcessInfo (lit "web")])).
Proof.
  exact (proj1 (proj2 (proj2
           (failed_status_stops_everything _ down_serve (lit "web") tt tt
              (zero_ret (getProcessInfo (lit "web")))
              (errors_New (lit "connection refused")) eq_refl)))).
Defined.

Lemma Restart_rereads_state_witness :
  run (Restart _ stuck_serve (lit "web")) tt
  = (Returns None,
     (tt, [getProcessInfo (lit "web"); stopProcess (lit "web");
           getProcessInfo (lit "web")])).
Proof.
  exact (proj2 (Restart_rereads_state _ stuck_serve (lit "web") tt tt tt
                  (sample_info (lit "web") Running) None
                  eq_refl (or_introl eq_refl) eq_refl)
           eq_refl (sample_info (lit "web") Running) tt eq_refl
           (or_introl eq_refl)).
Defined.

(** ** Reloading the configuration *)

Lemma is_prefix_nil {A : Type} (l : list A) : is_prefix [] l.
Proof. exists l. reflexivity. Qed.

Lemma is_prefix_refl {A : Type} (l : list A) : is_prefix l l.
Proof. exists []. symmetry. apply app_nil_r. Qed.

Lemma is_prefix_cons {A : Type} (x : A) (p l : list A) :
  is_prefix p l -> is_prefix (x :: p) (x :: l).
Proof. intros [r ->]. exists r. reflexivity. Qed.

Lemma is_prefix_app_r {A : Type} (p l m : list A) :
  is_prefix p l -> is_prefix p (l ++ m).
Proof. intros [r ->]. exists (r ++ m). symmetry. apply app_assoc. Qed.

Lemma is_prefix_app_l {A : Type} (k p l : list A) :
  is_prefix p l -> is_prefix (k ++ p) (k ++ l).
Proof. intros [r ->]. exists r. apply app_assoc. Qed.

Section ReloadProperties.

Variable server : Type.
Variable serve :
  forall r : request, server -> (ret_type r * option error) * server.

(** [Remove] returns; among the group requests it sends at most the
    removal of [name], and it has sent it when it returns [nil]. *)
Lemma Remove_trace (name : gostring) (s : server) (tr : list request) :
  exists e s' d,
    Remove server serve name (s, tr) = (Returns e, (s', tr ++ d)) /\
    (filter is_group_request d = [] \/
     filter is_group_request d = [removeProcessGroup name]) /\
    (e = None -> filter is_group_request d = [removeProcessGroup name]).
Proof.
  unfold Remove, Stop, Status, Info, bind, Call, done. cbn [fst snd].
  destruct (serve (getProcessInfo name) s) as [[i e] s1]. cbn [fst snd].
  destruct e as [e|].
  - exists (Some e), s1, [getProcessInfo name].
    split; [reflexivity | split; [left; reflexivity | discriminate]].
  - match goal with
    | |- context [if ?b then _ else _] => destruct b
    end; cbv beta; cbn [fst snd].
    + destruct (serve (stopProcess name) s1) as [[u e] s2]. cbn [fst snd].
      destruct e as [e|].
      * exists (Some e), s2, [getProcessInfo name; stopProcess name].
        rewrite <- app_assoc.
        split; [reflexivity | split; [left; reflexivity | discriminate]].
      * cbn [fst snd].
        destruct (serve (removeProcessGroup name) s2) as [[u' e'] s3].
        exists e', s3,
          [getProcessInfo name; stopProcess name; removeProcessGroup name].
        rewrite <- !app_assoc.
        split; [reflexivity | split; [right; reflexivity | reflexivity]].
    + unfold done. cbn [fst snd].
      destruct (serve (removeProcessGroup name) s1) as [[u' e'] s3].
      exists e', s3, [getProcessInfo name; removeProcessGroup name].
      rewrite <- !app_assoc.
      split; [reflexivity | split; [right; reflexivity | reflexivity]].
Qed.

Lemma Add_trace (name : gostring) (s : server) (tr : list request) :
  exists e s' d,
    Add server serve name (s, tr) = (Returns e, (s', tr ++ d)) /\
    (filter is_group_request d = [] \/
     filter is_group_request d = [addProcessGroup name]) /\
    (e = None -> filter is_group_request d = [addProcessGroup name]).
Proof.
  unfold Add, bind, Call, done. cbn [fst snd].
  destruct (serve (addProcessGroup name) s) as [[u e] s1].
  exists e, s1, [addProcessGroup name].
  split; [reflexivity | split; [right; reflexivity | reflexivity]].
Qed.

(** A loop over [names] whose body sends at most the group request
    [g name], and has sent it when it returns [nil]: the group requests of
    the loop are an initial segment of [map g names], and all of it when the
    loop returns [nil]. *)
Lemma each_trace (f : gostring -> M server (option error))
      (g : gostring -> request) :
  (forall name s tr,
      exists e s' d,
        f name (s, tr) = (Returns e, (s', tr ++ d)) /\
        (filter is_group_request d = [] \/
         filter is_group_request d = [g name]) /\
        (e = None -> filter is_group_request d = [g name])) ->
  forall names s tr,
    exists e s' d,
      each server f names (s, tr) = (Returns e, (s', tr ++ d)) /\
      is_prefix (filter is_group_request d) (map g names) /\
      (e = None -> filter is_group_request d = map g names).
Proof.
  intros Hf names. induction names as [|name names IH]; intros s tr.
  - exists None, s, []. rewrite app_nil_r.
    split; [reflexivity | split; [apply is_prefix_nil | reflexivity]].
  - destruct (Hf name s tr) as [e [s1 [d [Hrun [Hd He]]]]].
    cbn [each]. unfold bind at 1. rewrite Hrun. destruct e as [e|].
    + exists (Some e), s1, d. split; [reflexivity|]. split; [|discriminate].
      destruct Hd as [-> | ->]; [apply is_prefix_nil|].
      apply is_prefix_cons, is_prefix_nil.
    + destruct (IH s1 (tr ++ d)) as [e' [s2 [d' [Hrun' [Hp He']]]]].
      exists e', s2, (d ++ d'). rewrite Hrun', app_assoc.
      split; [reflexivity|]. rewrite filter_app, (He eq_refl). cbn [map app].
      split; [apply is_prefix_cons, Hp|].
      intros E. rewrite (He' E). reflexivity.
Qed.

(** The group requests of [Update] after a well-formed reload, and the map
    it returns. *)
Lemma Update_requests_prefix
        (s s1 : server) (rows : list (list (list gostring)))
        (row : list (list gostring)) (added changed removed : list gostring) :
  serve reloadConfig s = ((rows, None), s1) ->
  index rows 0 = Some row ->
  index row 0 = Some added -> index row 1 = Some changed ->
  index row 2 = Some removed ->
  exists m e w,
    run (Update server serve) s = (Returns (m, e), w) /\
    map_get (lit "added") m = Some added /\
    map_get (lit "changed") m = Some changed /\
    map_get (lit "removed") m = Some removed /\
    is_prefix (filter is_group_request (snd w))
              (map removeProcessGroup (removed ++ changed)
               ++ map addProcessGroup (added ++ changed)) /\
    (e = None ->
     filter is_group_request (snd w)
     = map removeProcessGroup (removed ++ changed)
       ++ map addProcessGroup (added ++ changed)).
Proof.
  intros Hcall Hrow Ha Hc Hr.
  unfold run, Update, Reread. unfold bind at 1 2, Call, done. cbn [fst snd app].
  rewrite Hcall. cbn [fst snd]. rewrite Hrow, Ha, Hc, Hr.
  destruct (each_trace (Remove server serve) removeProcessGroup
              (Remove_trace) (removed ++ changed) s1 [reloadConfig])
    as [e1 [s2 [d1 [Hrun1 [Hp1 He1]]]]].
  unfold bind at 1. rewrite Hrun1. destruct e1 as [e1|].
  - eexists _, (Some e1), _. split; [reflexivity|].
    repeat split. cbn [snd filter is_group_request app].
    + apply is_prefix_app_r, Hp1.
    + discriminate.
  - destruct (each_trace (Add server serve) addProcessGroup
                (Add_trace) (added ++ changed) s2 ([reloadConfig] ++ d1))
      as [e2 [s3 [d2 [Hrun2 [Hp2 He2]]]]].
    unfold bind at 1. rewrite Hrun2.
    eexists _, e2, _. split; [reflexivity|].
    repeat split; cbn [snd]; rewrite !filter_app; cbn [filter is_group_request app];
      rewrite (He1 eq_refl).
    + apply is_prefix_app_l, Hp2.
    + intros E. rewrite (He2 E). reflexivity.
Qed.

Lemma served_app (s : server) (d1 d2 : list request) :
  served serve s (d1 ++ d2)
  = (fst (served serve s d1)
     ++ fst (served serve (snd (served serve s d1)) d2),
     snd (served serve (snd (served serve s d1)) d2)).
Proof.
  revert s. induction d1 as [|r d1 IH]; intros s.
  - cbn. destruct (served serve s d2); reflexivity.
  - cbn [app served]. rewrite IH.
    destruct (served serve (snd (serve r s)) d1) as [a1 s1]. cbn [fst snd].
    destruct (served serve s1 d2) as [a2 s2]. reflexivity.
Qed.

Lemma stops_at_first_error_app (a1 a2 : list (option error))
      (e : option error) :
  Forall (fun a => a = None) a1 ->
  stops_at_first_error a2 e -> stops_at_first_error (a1 ++ a2) e.
Proof.
  intros H1 H2. destruct e as [e|]; cbn in *.
  - destruct H2 as [init [-> Hi]]. exists (a1 ++ init).
    split; [apply app_assoc | apply Forall_app; auto].
  - apply Forall_app; auto.
Qed.

Lemma sound_done {A : Type} (a : A) (err_of : A -> option error) :
  err_of a = None -> sound serve (done a) err_of.
Proof.
  intros E s tr. cbn. exists []. rewrite app_nil_r, E.
  repeat split. constructor.
Qed.

Lemma sound_panic {A : Type} (err_of : A -> option error) :
  sound serve (@panic server A) err_of.
Proof. intros s tr. exact I. Qed.

Lemma sound_Call (r : request) : sound serve (Call server serve r) snd.
Proof.
  intros s tr. unfold Call. cbn [fst snd].
  destruct (serve r s) as [[v e] s1] eqn:E.
  exists [r]. cbn [served]. rewrite E. cbn [fst snd].
  repeat split. destruct e as [e|]; cbn.
  - exists []. split; [reflexivity | constructor].
  - repeat constructor.
Qed.

(** Sequencing: the continuation runs only after an answer without error,
    and hands an error on unchanged. *)
Lemma sound_bind {A B : Type} (c : M server A) (k : A -> M server B)
      (err1 : A -> option error) (err2 : B -> option error) :
  sound serve c err1 ->
  (forall a, match err1 a with
             | None => sound serve (k a) err2
             | Some e => exists b, k a = done b /\ err2 b = Some e
             end) ->
  sound serve (bind c k) err2.
Proof.
  intros Hc Hk s tr. unfold bind. specialize (Hc s tr).
  destruct (c (s, tr)) as [[a|] [s1 tr1]]; [|exact I].
  destruct Hc as [d1 [-> [Hs1 Hp1]]]. specialize (Hk a).
  destruct (err1 a) as [e|] eqn:E.
  - destruct Hk as [b [-> Eb]]. cbn. exists d1. rewrite Eb. auto.
  - specialize (Hk s1 (tr ++ d1)).
    destruct (k a (s1, tr ++ d1)) as [[b|] [s2 tr2]]; [|exact I].
    destruct Hk as [d2 [-> [Hs2 Hp2]]]. exists (d1 ++ d2).
    split; [symmetry; apply app_assoc|]. rewrite served_app. cbn [fst snd].
    rewrite Hs1. split; [exact Hs2|].
    apply stops_at_first_error_app; assumption.
Qed.

Lemma sound_Status (name : gostring) :
  sound serve (Status server serve name) snd.
Proof.
  unfold Status, Info. apply (sound_bind _ _ snd snd); [apply (sound_Call (getProcessInfo name))|].
  intros [i [e|]]; cbn [snd].
  - eexists. split; reflexivity.
  - apply sound_done. reflexivity.
Qed.

Lemma sound_Stop (name : gostring) :
  sound serve (Stop server serve name) (fun e => e).
Proof.
  unfold Stop. apply (sound_bind _ _ snd (fun e => e)); [apply sound_Status|].
  intros [st [e|]]; cbn [fst snd].
  - eexists. split; reflexivity.
  - destruct (eqs st Running || eqs st Starting).
    + apply (sound_bind _ _ snd (fun e => e)); [apply (sound_Call (stopProcess name))|].
      intros [u [e|]]; cbn [snd].
      * eexists. split; reflexivity.
      * apply sound_done. reflexivity.
    + apply sound_done. reflexivity.
Qed.

Lemma sound_Remove (name : gostring) :
  sound serve (Remove server serve name) (fun e => e).
Proof.
  unfold Remove.
  apply (sound_bind _ _ (fun e => e) (fun e => e)); [apply sound_Stop|].
  intros [e|].
  - eexists. split; reflexivity.
  - apply (sound_bind _ _ snd (fun e => e)); [apply (sound_Call (removeProcessGroup name))|].
    intros [u [e|]]; cbn [snd].
    + eexists. split; reflexivity.
    + apply sound_done. reflexivity.
Qed.

Lemma sound_Add (name : gostring) :
  sound serve (Add server serve name) (fun e => e).
Proof.
  unfold Add. apply (sound_bind _ _ snd (fun e => e)); [apply (sound_Call (addProcessGroup name))|].
  intros [u [e|]]; cbn [snd].
  - eexists. split; reflexivity.
  - apply sound_done. reflexivity.
Qed.

Lemma sound_each (f : gostring -> M server (option error)) :
  (forall name, sound serve (f name) (fun e => e)) ->
  forall names, sound serve (each server f names) (fun e => e).
Proof.
  intros Hf names. induction names as [|name names IH]; cbn [each].
  - apply sound_done. reflexivity.
  - apply (sound_bind _ _ (fun e => e) (fun e => e)); [apply Hf|].
    intros [e|]; [eexists; split; reflexivity | exact IH].
Qed.

Lemma sound_Reread : sound serve (Reread server serve) snd.
Proof.
  unfold Reread. apply (sound_bind _ _ snd snd); [apply (sound_Call (reloadConfig))|].
  intros [rows [e|]]; cbn [fst snd].
  - eexists. split; reflexivity.
  - destruct (index rows 0) as [row|]; [|apply sound_panic].
    destruct (index row 0); [|apply sound_panic].
    destruct (index row 1); [|apply sound_panic].
    destruct (index row 2); [|apply sound_panic].
    apply sound_done. reflexivity.
Qed.

Lemma sound_Update : sound serve (Update server serve) snd.
Proof.
  unfold Update. apply (sound_bind _ _ snd snd); [apply sound_Reread|].
  intros [[[added changed] removed] [e|]]; cbn [snd].
  - eexists. split; reflexivity.
  - apply (sound_bind _ _ (fun e => e) snd);
      [apply sound_each, sound_Remove|].
    intros [e|]; [eexists; split; reflexivity|].
    apply (sound_bind _ _ (fun e => e) snd); [apply sound_each, sound_Add|].
    intros [e|]; [eexists; split; reflexivity|].
    apply sound_done. reflexivity.
Qed.

(** X5.  After a reload whose reply has a first row of three lists
    ([added], [changed], [removed]), [Update] returns, with a map that
    binds the three lists as reported.  The group requests it sends are an
    initial segment of: the removal of every removed and then every changed
    group, followed by the addition of every added and then every changed
    group; they are that whole sequence when [Update] returns [nil].  A
    failure stops the sequence where it occurs: the error [Update] returns
    is the first error any of its requests (state query, stop, removal,
    addition) was answered, that request is the last one sent, and
    [Update] returns [nil] only when no request failed. *)
Theorem Update_group_requests
        (s s1 : server) (rows : list (list (list gostring)))
        (row : list (list gostring)) (added changed removed : list gostring) :
  serve reloadConfig s = ((rows, None), s1) ->
  index rows 0 = Some row ->
  index row 0 = Some added -> index row 1 = Some changed ->
  index row 2 = Some removed ->
  exists m e w,
    run (Update server serve) s = (Returns (m, e), w) /\
    map_get (lit "added") m = Some added /\
    map_get (lit "changed") m = Some changed /\
    map_get (lit "removed") m = Some removed /\
    is_prefix (filter is_group_request (snd w))
              (map removeProcessGroup (removed ++ changed)
               ++ map addProcessGroup (added ++ changed)) /\
    (e = None ->
     filter is_group_request (snd w)
     = map removeProcessGroup (removed ++ changed)
       ++ map addProcessGroup (added ++ changed)) /\
    snd (served serve s (snd w)) = fst w /\
    stops_at_first_error (fst (served serve s (snd w))) e.
Proof.
  intros Hcall Hrow Ha Hc Hr.
  destruct (Update_requests_prefix s s1 rows row added changed removed
              Hcall Hrow Ha Hc Hr)
    as [m [e [[s' tr] [Hrun [H1 [H2 [H3 [H4 H5]]]]]]]].
  exists m, e, (s', tr). repeat (split; [assumption|]).
  pose proof (sound_Update s []) as Hs. unfold run in Hrun. rewrite Hrun in Hs.
  destruct Hs as [d [Hd [Hs Hp]]]. cbn [app] in Hd. subst d.
  cbn [fst snd]. split; assumption.
Qed.

(** X6.  [Reread] returns the error of a failed reload with three empty
    lists, and [Update] then returns that error with an empty map; nothing
    but the reload request is sent.  When the reload succeeds with a reply
    that has no row, or whose first row has fewer than three lists, both
    panic on the index expressions. *)
Theorem Reread_error_and_short_reply
        (s s1 : server) (rows : list (list (list gostring)))
        (err : option error) :
  serve reloadConfig s = ((rows, err), s1) ->
  (forall e, err = Some e ->
   run (Reread server serve) s
   = (Returns ([], [], [], Some e), (s1, [reloadConfig])) /\
   run (Update server serve) s
   = (Returns ([], Some e), (s1, [reloadConfig]))) /\
  (err = None ->
   rows = [] \/ (exists row more, rows = row :: more /\ (length row < 3)%nat) ->
   run (Reread server serve) s = (Panicked, (s1, [reloadConfig])) /\
   run (Update server serve) s = (Panicked, (s1, [reloadConfig]))).
Proof.
  intros Hcall.
  unfold run, Update, Reread. unfold bind, Call, done, panic. cbn [fst snd app].
  rewrite Hcall. cbn [fst snd]. split.
  - intros e ->. split; reflexivity.
  - intros -> [-> | [row [more [-> Hlen]]]].
    + split; reflexivity.
    + rewrite index_0.
      destruct row as [|a [|b [|c row]]]; try (split; reflexivity).
      simpl in Hlen. lia.
Qed.

End ReloadProperties.

Lemma Update_group_requests_witness :
  exists m e w,
    run (Update _ sample_serve) [lit "old"; lit "web"] = (Returns (m, e), w) /\
    map_get (lit "added") m = Some [lit "new"] /\
    map_get (lit "changed") m = Some [lit "web"] /\
    map_get (lit "removed") m = Some [lit "old"] /\
    is_prefix (filter is_group_request (snd w))
              (map removeProcessGroup ([lit "old"] ++ [lit "web"])
               ++ map addProcessGroup ([lit "new"] ++ [lit "web"])) /\
    (e = None ->
     filter is_group_request (snd w)
     = map removeProcessGroup ([lit "old"] ++ [lit "web"])
       ++ map addProcessGroup ([lit "new"] ++ [lit "web"])) /\
    snd (served sample_serve [lit "old"; lit "web"] (snd w)) = fst w /\
    stops_at_first_error
      (fst (served sample_serve [lit "old"; lit "web"] (snd w))) e.
Proof.
  exact (Update_group_requests _ sample_serve [lit "old"; lit "web"]
           [lit "old"; lit "web"] [[[lit "new"]; [lit "web"]; [lit "old"]]]
           [[lit "new"]; [lit "web"]; [lit "old"]]
           [lit "new"] [lit "web"] [lit "old"]
           eq_refl eq_refl eq_refl eq_refl eq_refl).
Defined.

Lemma Reread_error_and_short_reply_witness :
  run (Update _ down_serve) tt
  = (Returns ([], Some (errors_New (lit "connection refused"))),
     (tt, [reloadConfig])) /\
  run (Update _ stuck_serve) tt = (Panicked, (tt, [reloadConfig])).
Proof.
  split.
  - exact (proj2 (proj1 (Reread_error_and_short_reply _ down_serve tt tt []
                           (Some (errors_New (lit "connection refused")))
                           eq_refl)
                    (errors_New (lit "connection refused")) eq_refl)).
  - exact (proj2 (proj2 (Reread_error_and_short_reply _ stuck_serve tt tt []
                           None eq_refl)
                    eq_refl (or_introl eq_refl))).
Defined.

(** * More on the tail session *)

(** X7.  Whatever the replies, [tailLog] never writes an empty chunk into
    the pipe. *)
Theorem tailLog_writes_no_empty_chunk
        (tailLine : Z) (script : list event) :
  forall offset,
    Forall (fun d => d <> []) (fst (tailLog_loop tailLine offset script)).
Proof.
  induction script as [|ev script IH]; intros offset; [constructor|].
  destruct ev as [e|[e|ret] ctxErr write]; cbn [tailLog_loop fst];
    try constructor.
  destruct (tailLog_poll tailLine offset ret) as [|o d|];
    [apply IH | | constructor].
  destruct (len d >? 0) eqn:E; [|apply IH].
  destruct write as [e|]; [constructor|].
  specialize (IH o). destruct (tailLog_loop tailLine o script) as [w f].
  cbn [fst] in *. constructor; [|exact IH].
  intros ->. discriminate E.
Qed.

(** X8.  Once the goroutine has ended (pipe closed, or panic), nothing that
    happens afterwards is looked at: no further tick polls, and the output
    of the session is the same. *)
Theorem tailLog_end_is_final
        (tailLine : Z) (script more : list event) :
  forall offset,
    (forall o, snd (tailLog_loop tailLine offset script) <> Polling o) ->
    tailLog_loop tailLine offset (script ++ more)
    = tailLog_loop tailLine offset script.
Proof.
  induction script as [|ev script IH]; intros offset H.
  - exfalso. apply (H offset). reflexivity.
  - destruct ev as [e|[e|ret] ctxErr write]; cbn [tailLog_loop app] in *;
      try reflexivity.
    destruct (tailLog_poll tailLine offset ret) as [|o d|];
      [apply IH, H | | reflexivity].
    destruct (len d >? 0); [|apply IH, H].
    destruct write as [e|]; [reflexivity|].
    rewrite IH; [reflexivity|].
    intros o' E. apply (H o').
    destruct (tailLog_loop tailLine o script) as [w f]. exact E.
Qed.

Lemma tailLog_end_is_final_witness :
  tailLog_loop 2 0 ([poll (chunk_abc, 6); ctx_Done context_Canceled]
                    ++ [poll (chunk_bcd, 8)])
  = tailLog_loop 2 0 [poll (chunk_abc, 6); ctx_Done context_Canceled].
Proof.
  apply (tailLog_end_is_final 2 [poll (chunk_abc, 6); ctx_Done context_Canceled]
           [poll (chunk_bcd, 8)] 0).
  intros o. vm_compute. discriminate.
Defined.

(** X9.  A reply whose first element is not a string is skipped: nothing
    is written, the stored offset is left alone (on the first poll too, so
    the next reply is still handled as the first), and the loop goes on. *)
Theorem non_string_chunk_is_skipped
        (tailLine offset : Z) (v : any) (rest : list any)
        (ctxErr write : option error) (script : list event) :
  (forall d, v <> VString d) ->
  tailLog_poll tailLine offset (v :: rest) = Continue /\
  tailLog_loop tailLine offset (t_C (inr (v :: rest)) ctxErr write :: script)
  = tailLog_loop tailLine offset script.
Proof.
  intros H.
  assert (P : tailLog_poll tailLine offset (v :: rest) = Continue).
  { unfold tailLog_poll. rewrite index_0.
    destruct v as [d| | |]; [exfalso; apply (H d); reflexivity | | |];
      reflexivity. }
  split; [exact P|]. cbn [tailLog_loop]. rewrite P. reflexivity.
Qed.

Lemma non_string_chunk_is_skipped_witness :
  tailLog 2 [t_C (inr [VNil; VInt64 4]) None None; poll (chunk_abc, 6)]
  = tailLog 2 [poll (chunk_abc, 6)].
Proof.
  assert (H : forall d, VNil <> VString d) by (intros d; discriminate).
  exact (proj2 (non_string_chunk_is_skipped 2 0 VNil [VInt64 4] None None
                  [poll (chunk_abc, 6)] H)).
Defined.

(** X10.  A reply of the wrong shape makes the poll panic, at any stored
    offset: a reply without elements, a reply with a string chunk and
    nothing else, and a reply whose second element is no 64-bit integer.
    Nothing is written and the goroutine ends in a crash. *)
Theorem malformed_reply_panics
        (tailLine offset : Z) (ret : list any)
        (ctxErr write : option error) (script : list event) :
  ret = [] \/
  (exists d, ret = [VString d]) \/
  (exists d v rest, ret = VString d :: v :: rest /\ forall n, v <> VInt64 n) ->
  tailLog_poll tailLine offset ret = Panic /\
  tailLog_loop tailLine offset (t_C (inr ret) ctxErr write :: script)
  = ([], Crash (deferred None ctxErr)).
Proof.
  intros H.
  assert (P : tailLog_poll tailLine offset ret = Panic).
  { unfold tailLog_poll.
    destruct H as [-> | [[d ->] | [d [v [rest [-> Hv]]]]]].
    - reflexivity.
    - rewrite index_0. destruct (offset =? 0); reflexivity.
    - rewrite index_0, index_1.
      destruct v as [| n | |]; [| exfalso; apply (Hv n); reflexivity | |];
        destruct (offset =? 0); reflexivity. }
  split; [exact P|]. cbn [tailLog_loop]. rewrite P. reflexivity.
Qed.

Lemma malformed_reply_panics_witness :
  tailLog_loop 2 6 [t_C (inr [VString chunk_bcd]) None None]
  = ([], Crash (errors_New (lit "tail log quit"))).
Proof.
  exact (proj2 (malformed_reply_panics 2 6 [VString chunk_bcd] None None []
                  (or_intror (or_introl (ex_intro _ chunk_bcd eq_refl))))).
Defined.

(** One poll keeps a file position a file position and does not move it
    back. *)
Lemma poll_position (tailLine offset : Z) (ret : list any) (o : Z)
      (d : gostring) (ctxErr write : option error) :
  0 <= offset < 2 ^ 63 ->
  reports_position (t_C (inr ret) ctxErr write) ->
  tailLog_poll tailLine offset ret = Deliver o d ->
  offset <= o < 2 ^ 63.
Proof.
  intros Ho Hr. unfold tailLog_poll.
  destruct ret as [|v0 [|v1 rest]].
  - discriminate.
  - rewrite index_0. change (index [v0] 1) with (@None any).
    destruct v0; try discriminate. destruct (offset =? 0); discriminate.
  - rewrite index_0, index_1. cbn [reports_position] in Hr.
    destruct v0 as [data| | |]; try discriminate.
    destruct v1 as [|n| |]; try (destruct (offset =? 0); discriminate).
    cbv zeta. destruct (offset =? 0) eqn:E0.
    + apply Z.eqb_eq in E0. subst offset.
      destruct (Count data >? tailLine).
      * match goal with
        | |- context [index ?a ?b] => destruct (index a b)
        end; [|discriminate].
        intros E; inversion E; subst. lia.
      * intros E; inversion E; subst. lia.
    + destruct (sub64 n offset >? 0) eqn:E.
      * rewrite sub64_id in E by (unfold int_range; lia).
        apply Z.gtb_lt in E.
        match goal with
        | |- context [slice_from ?a ?b] => destruct (slice_from a b)
        end; [|discriminate].
        intros E'; inversion E'; subst. lia.
      * intros E'; inversion E'; subst. lia.
Qed.

(** X11.  As long as the replies report file positions, the offset stored
    by [tailLog] never goes back: from a position [offset], whenever the
    goroutine is still polling at the end of a script, its offset is a
    position at or after [offset]. *)
Theorem stored_offset_never_goes_back
        (tailLine : Z) (script : list event) :
  Forall reports_position script ->
  forall offset o,
    0 <= offset < 2 ^ 63 ->
    snd (tailLog_loop tailLine offset script) = Polling o ->
    offset <= o < 2 ^ 63.
Proof.
  induction 1 as [|ev script Hev _ IH]; intros offset o Ho.
  - cbn. intros E; inversion E; subst. lia.
  - destruct ev as [e|[e|ret] ctxErr write]; cbn [tailLog_loop snd];
      try discriminate.
    destruct (tailLog_poll tailLine offset ret) as [|o1 d|] eqn:P;
      [apply IH, Ho | | discriminate].
    pose proof (poll_position _ _ _ _ _ _ _ Ho Hev P) as H1.
    assert (K : snd (tailLog_loop tailLine o1 script) = Polling o ->
                offset <= o < 2 ^ 63).
    { intros E. pose proof (IH o1 o ltac:(lia) E). lia. }
    destruct (len d >? 0); [|exact K].
    destruct write as [e|]; [discriminate|].
    destruct (tailLog_loop tailLine o1 script) as [w f]. exact K.
Qed.

Lemma stored_offset_never_goes_back_witness :
  snd (tailLog_loop 2 0 [poll (chunk_abc, 6); poll (chunk_bcd, 8); poll ([], 5)])
  = Polling 8 /\
  0 <= 8 < 2 ^ 63.
Proof.
  assert (R : Forall reports_position
                [poll (chunk_abc, 6); poll (chunk_bcd, 8); poll ([], 5)]).
  { repeat constructor; vm_compute; discriminate. }
  assert (H0 : 0 <= 0 < 2 ^ 63)
    by (split; vm_compute; [discriminate | reflexivity]).
  split; [reflexivity|].
  exact (stored_offset_never_goes_back 2
           [poll (chunk_abc, 6); poll (chunk_bcd, 8); poll ([], 5)]
           R 0 8 H0 eq_refl).
Defined.

(** X12.  Every call [tailLog] makes names the same method and process and
    asks for the same number of bytes, the default 8192 when 0 was given
    and never 0; the first call sends the offset the loop starts with, and
    as long as the replies report file positions the offsets sent are file
    positions that never go down from one call to the next. *)
Theorem tailLog_requests_offsets
        (method name : gostring) (readBufSize tailLine : Z)
        (script : list event) :
  Forall reports_position script ->
  forall offset,
    0 <= offset < 2 ^ 63 ->
    let reqs := tailLog_requests method name readBufSize tailLine offset script in
    Forall (fun r => req_method r = method /\ req_name r = name /\
                     req_size r = effective_readBufSize readBufSize /\
                     req_size r <> 0 /\
                     offset <= req_offset r < 2 ^ 63) reqs /\
    nondecreasing (map req_offset reqs) /\
    (forall r rest, reqs = r :: rest -> req_offset r = offset).
Proof.
  assert (Hsize : effective_readBufSize readBufSize <> 0).
  { unfold effective_readBufSize, defaultReadLogBufSize.
    destruct (readBufSize =? 0) eqn:E; [discriminate|].
    apply Z.eqb_neq, E. }
  induction 1 as [|ev script Hev _ IH]; intros offset Ho reqs; subst reqs.
  - cbn. split; [constructor | split; [exact I | discriminate]].
  - assert (K0 : let reqs := [{| req_method := method; req_name := name;
                                 req_offset := offset;
                                 req_size := effective_readBufSize readBufSize |}] in
                 Forall (fun r => req_method r = method /\ req_name r = name /\
                                  req_size r = effective_readBufSize readBufSize /\
                                  req_size r <> 0 /\
                                  offset <= req_offset r < 2 ^ 63) reqs /\
                 nondecreasing (map req_offset reqs) /\
                 (forall r rest, reqs = r :: rest -> req_offset r = offset)).
    { split; [|split].
      - constructor; [cbn; repeat split; auto; lia | constructor].
      - cbn. auto.
      - intros r rest E. inversion E. reflexivity. }
    destruct ev as [e|[e|ret] ctxErr write]; cbn [tailLog_requests].
    + split; [constructor | split; [exact I | discriminate]].
    + exact K0.
    + assert (K : forall o1,
                 offset <= o1 < 2 ^ 63 ->
                 let tl := tailLog_requests method name readBufSize tailLine
                                            o1 script in
                 let reqs := {| req_method := method; req_name := name;
                                req_offset := offset;
                                req_size := effective_readBufSize readBufSize |}
                             :: tl in
                 Forall (fun r => req_method r = method /\ req_name r = name /\
                                  req_size r = effective_readBufSize readBufSize /\
                                  req_size r <> 0 /\
                                  offset <= req_offset r < 2 ^ 63) reqs /\
                 nondecreasing (map req_offset reqs) /\
                 (forall r rest, reqs = r :: rest -> req_offset r = offset)).
      { intros o1 Ho1 tl reqs. subst reqs tl.
        destruct (IH o1 ltac:(lia)) as [HF [HN _]].
        split; [|split].
        - constructor; [cbn; repeat split; auto; lia|].
          eapply Forall_impl; [|exact HF]. cbn. intros r H. intuition lia.
        - cbn [map nondecreasing req_offset]. split; [|exact HN].
          destruct (tailLog_requests method name readBufSize tailLine o1 script)
            as [|r tl]; [exact I|].
          cbn [map]. inversion HF as [|? ? Hr _]; subst. intuition lia.
        - intros r rest E. inversion E. reflexivity. }
      destruct (tailLog_poll tailLine offset ret) as [|o1 d|] eqn:P.
      * apply K. lia.
      * pose proof (poll_position _ _ _ _ _ _ _ Ho Hev P) as H1.
        destruct (len d >? 0); [|apply K, H1].
        destruct write as [e|]; [exact K0 | apply K, H1].
      * exact K0.
Qed.

Lemma tailLog_requests_offsets_witness :
  map req_offset
      (tailLog_requests tailProcessStdoutLog (lit "web") 0 2 0
         [poll (chunk_abc, 6); poll (chunk_bcd, 8); poll ([], 5)])
  = [0; 6; 8] /\
  nondecreasing [0; 6; 8].
Proof.
  assert (R : Forall reports_position
                [poll (chunk_abc, 6); poll (chunk_bcd, 8); poll ([], 5)]).
  { repeat constructor; vm_compute; discriminate. }
  assert (H0 : 0 <= 0 < 2 ^ 63)
    by (split; vm_compute; [discriminate | reflexivity]).
  split; [reflexivity|].
  exact (proj1 (proj2 (tailLog_requests_offsets tailProcessStdoutLog (lit "web")
                         0 2 [poll (chunk_abc, 6); poll (chunk_bcd, 8); poll ([], 5)]
                         R 0 H0))).
Defined.

(** X13.  When the RPC call of a polling session fails with [io.EOF]
    itself, the pipe is closed with [io.EOF], and [logChan] then neither
    sends a final entry nor closes the channel: whatever the number of
    iterations, it is still in its sleep-and-retry loop. *)
Theorem rpc_EOF_leaves_channel_open
        (tailLine : Z) (pre post : list event) (written : list gostring)
        (offset : Z) (ctxErr write : option error) :
  tailLog tailLine pre = (written, Polling offset) ->
  tailLog tailLine (pre ++ t_C (inl io_EOF) ctxErr write :: post)
  = (written, CloseWithError io_EOF) /\
  forall fuel,
    snd (logChan fuel tailLine (pre ++ t_C (inl io_EOF) ctxErr write :: post))
    = Sleeping.
Proof.
  intros Hpre.
  assert (T : tailLog tailLine (pre ++ t_C (inl io_EOF) ctxErr write :: post)
              = (written, CloseWithError io_EOF)).
  { unfold tailLog in *. rewrite (tailLog_loop_app _ _ _ _ _ _ Hpre).
    cbn [tailLog_loop fst snd deferred]. rewrite app_nil_r. reflexivity. }
  split; [exact T|]. intros fuel. unfold logChan. rewrite T.
  apply logChan_loop_EOF.
Qed.

Lemma rpc_EOF_leaves_channel_open_witness :
  snd (logChan 50 2 ([poll (chunk_abc, 6)] ++ [t_C (inl io_EOF) None None]))
  = Sleeping.
Proof.
  exact (proj2 (rpc_EOF_leaves_channel_open 2 [poll (chunk_abc, 6)] []
                  [line "b" ++ line "c"] 6 None None eq_refl) 50%nat).
Defined.

Lemma after_newlines_boundary (s : gostring) :
  forall k, (0 < k)%nat -> Z.of_nat k <= Count s ->
            exists pre, s = (pre ++ [nl]) ++ after_newlines k s.
Proof.
  induction s as [|c s IH]; intros k Hk Hc.
  - simpl in Hc. lia.
  - destruct k as [|k]; [lia|]. simpl after_newlines. simpl Count in Hc.
    destruct (Ascii.eqb c nl) eqn:E.
    + apply Ascii.eqb_eq in E. subst c. destruct k as [|k].
      * exists []. rewrite after_newlines_0. reflexivity.
      * destruct (IH (S k) ltac:(lia) ltac:(lia)) as [pre Hp].
        exists (nl :: pre). simpl. congruence.
    + destruct (IH (S k) ltac:(lia) ltac:(lia)) as [pre Hp].
      exists (c :: pre). simpl. congruence.
Qed.

(** X14.  On the first poll with [tailLine >= 0] the chunk that goes on to
    the write is a suffix of the chunk received, it holds as many newlines
    as the chunk does but at most [tailLine], and when something was cut
    off, the cut is right after a newline. *)
Theorem first_poll_cuts_at_a_line
        (tailLine : Z) (data : gostring) (n : Z) (rest : list any) :
  0 <= tailLine -> fits data ->
  exists d pre,
    tailLog_poll tailLine 0 (VString data :: VInt64 n :: rest) = Deliver n d /\
    data = pre ++ d /\
    Count d = Z.min (Count data) tailLine /\
    (pre = [] \/ exists pre', pre = pre' ++ [nl]).
Proof.
  intros Ht Hf. rewrite (poll_first _ _ _ _ Ht Hf). unfold seed.
  pose proof (Count_nonneg data) as Hc.
  destruct (Count data >? tailLine) eqn:E.
  - apply Z.gtb_lt in E.
    destruct (after_newlines_boundary data (Z.to_nat (Count data - tailLine))
                ltac:(lia) ltac:(lia)) as [pre Hp].
    exists (after_newlines (Z.to_nat (Count data - tailLine)) data), (pre ++ [nl]).
    split; [reflexivity|]. split; [exact Hp|]. split.
    + rewrite after_newlines_Count by lia. lia.
    + right. exists pre. reflexivity.
  - rewrite Z.gtb_ltb in E. apply Z.ltb_ge in E.
    exists data, []. repeat split; [lia | left; reflexivity].
Qed.

Lemma first_poll_cuts_at_a_line_witness :
  exists d pre,
    tailLog_poll 2 0 (reply chunk_abc 6) = Deliver 6 d /\
    chunk_abc = pre ++ d /\
    Count d = Z.min (Count chunk_abc) 2 /\
    (pre = [] \/ exists pre', pre = pre' ++ [nl]).
Proof.
  assert (H0 : 0 <= 2) by (vm_compute; discriminate).
  exact (first_poll_cuts_at_a_line 2 chunk_abc 6 [VBool false] H0 fits_chunk_abc).
Defined.

(** X15.  What [logChan] sends depends on the bytes written into the pipe
    only, not on how they were cut into writes: two sequences of chunks
    with the same concatenation give the same entries, on an open pipe and
    on a pipe closed with an error other than [io.EOF]. *)
Theorem chunking_does_not_matter
        (fuel : nat) (written written' : list gostring)
        (closing : option error) :
  concat written = concat written' ->
  (forall e, closing = Some e -> is_EOF e = false) ->
  Count (concat written) < Z.of_nat fuel ->
  logChan_loop fuel [] written closing = logChan_loop fuel [] written' closing.
Proof.
  intros Hcat Hc Hf. destruct closing as [e|].
  - destruct (logChan_loop_closed e fuel (Hc e eq_refl) [] written Hf)
      as [ls [r [Hs Hrun]]].
    destruct (logChan_loop_closed e fuel (Hc e eq_refl) [] written')
      as [ls' [r' [Hs' Hrun']]]; [simpl; rewrite <- Hcat; exact Hf|].
    simpl in Hs, Hs'. rewrite Hcat in Hs.
    destruct (split_lines_unique _ _ _ _ _ Hs Hs') as [-> _].
    rewrite Hrun, Hrun'. reflexivity.
  - destruct (logChan_loop_open fuel [] written Hf) as [ls [r [Hs Hrun]]].
    destruct (logChan_loop_open fuel [] written')
      as [ls' [r' [Hs' Hrun']]]; [simpl; rewrite <- Hcat; exact Hf|].
    simpl in Hs, Hs'. rewrite Hcat in Hs.
    destruct (split_lines_unique _ _ _ _ _ Hs Hs') as [-> _].
    rewrite Hrun, Hrun'. reflexivity.
Qed.

Lemma chunking_does_not_matter_witness :
  logChan_loop 3 [] [lit "a"; line "b" ++ lit "c"; line "d"]
               (Some context_Canceled)
  = logChan_loop 3 [] [line "ab"; lit "c"; line "d"] (Some context_Canceled).
Proof.
  apply (chunking_does_not_matter 3 [lit "a"; line "b" ++ lit "c"; line "d"]
           [line "ab"; lit "c"; line "d"] (Some context_Canceled) eq_refl).
  - intros e E. inversion E. reflexivity.
  - reflexivity.
Defined.

(** X16.  The error [tailLog] closes the pipe with when it returns is
    always one the environment handed to it: the context's error at a
    cancellation, or the error of the failing RPC call or write.  The
    description ["tail log quit"] is used only after a panic. *)
Theorem closing_error_comes_from_outside
        (tailLine : Z) (script : list event) :
  forall offset e,
    snd (tailLog_loop tailLine offset script) = CloseWithError e ->
    Exists (supplies e) script.
Proof.
  induction script as [|ev script IH]; intros offset e; [discriminate|].
  destruct ev as [e0|[e0|ret] ctxErr write]; cbn [tailLog_loop snd deferred].
  - intros E. inversion E. apply Exists_cons_hd. reflexivity.
  - intros E. inversion E. apply Exists_cons_hd. reflexivity.
  - destruct (tailLog_poll tailLine offset ret) as [|o d|];
      [intros E; apply Exists_cons_tl, (IH _ _ E) | | discriminate].
    destruct (len d >? 0); [|intros E; apply Exists_cons_tl, (IH _ _ E)].
    destruct write as [e1|].
    + intros E. inversion E. apply Exists_cons_hd. reflexivity.
    + specialize (IH o e). destruct (tailLog_loop tailLine o script) as [w f].
      intros E. apply Exists_cons_tl, IH, E.
Qed.

Lemma closing_error_comes_from_outside_witness :
  Exists (supplies context_Canceled)
         [poll (chunk_abc, 6); ctx_Done context_Canceled].
Proof.
  exact (closing_error_comes_from_outside 2
           [poll (chunk_abc, 6); ctx_Done context_Canceled]
           0 context_Canceled eq_refl).
Defined.

(** * The RPC client and the local log file *)

Lemma strip_prefix_app (prefix s : gostring) :
  strip_prefix prefix (prefix ++ s) = Some s.
Proof.
  induction prefix as [|p prefix IH]; [reflexivity|].
  simpl. rewrite Ascii.eqb_refl. exact IH.
Qed.

Lemma TrimPrefix_app (prefix s : gostring) : TrimPrefix (prefix ++ s) prefix = s.
Proof. unfold TrimPrefix. rewrite strip_prefix_app. reflexivity. Qed.

Lemma eqs_false (a b : gostring) : eqs a b = false <-> a <> b.
Proof.
  unfold eqs. destruct (list_eq_dec ascii_dec a b); split; congruence.
Qed.

Section ClientProperties.

Variable NewClient : gostring -> option error.
Variable ParseRpcConfig : gostring -> RpcConfig * option error.

(** X17.  The scheme of the HTTP server address is optional: an address
    given as ["http://" ++ host] and the bare [host] (one that does not
    itself start with ["http://"]) give the same client, and when it can be
    built it posts to ["http://" ++ host ++ "/RPC2"]. *)
Theorem http_scheme_is_optional (host username password : gostring) :
  strip_prefix (lit "http://") host = None ->
  NewRpcClient NewClient ParseRpcConfig
               (WithHttpServer (lit "http://" ++ host) username password)
  = NewRpcClient NewClient ParseRpcConfig
                 (WithHttpServer host username password) /\
  (host <> [] -> NewClient (http_rpc_url host) = None ->
   exists auth,
     rpc (fst (NewRpcClient NewClient ParseRpcConfig
                 (WithHttpServer (lit "http://" ++ host) username password)))
     = Some (http_client (lit "http://" ++ host ++ lit "/RPC2") auth)).
Proof.
  intros Hs.
  assert (E : WithHttpServer (lit "http://" ++ host) username password zero_client
              = WithHttpServer host username password zero_client).
  { unfold WithHttpServer. rewrite TrimPrefix_app.
    unfold TrimPrefix. rewrite Hs. reflexivity. }
  unfold NewRpcClient. rewrite E. split; [reflexivity|].
  intros Hh Hn. unfold initRpcClient, connect, initHttpRpcClient, WithHttpServer.
  cbn [configFile unixSock_path httpServer_url zero_client].
  unfold TrimPrefix. rewrite Hs.
  change (eqs [] []) with true. cbn [negb].
  apply eqs_false in Hh. rewrite Hh. cbn [negb]. rewrite Hn.
  eexists. reflexivity.
Qed.

(** X18.  Without a config file, the unix socket comes first: when a
    socket path is set and its client can be built the client dials that
    socket, whatever the HTTP settings; otherwise, when an HTTP address
    is set and its client can be built, the client posts to it; otherwise
    initialisation fails with the fixed error and the client holds no
    connection it built. *)
Theorem connect_prefers_unix_socket (r : RpcClient) :
  configFile r = [] ->
  let unix_ok := unixSock_path r <> [] /\ NewClient unix_rpc_url = None in
  let http_ok := httpServer_url r <> [] /\
                 NewClient (http_rpc_url (httpServer_url r)) = None in
  (unix_ok ->
   initRpcClient NewClient ParseRpcConfig r
   = (set_rpc r (Some (unix_client (unixSock_path r))), None)) /\
  (~ unix_ok -> http_ok ->
   exists auth,
     initRpcClient NewClient ParseRpcConfig r
     = (set_rpc r (Some (http_client (http_rpc_url (httpServer_url r)) auth)),
        None)) /\
  (~ unix_ok -> ~ http_ok ->
   snd (initRpcClient NewClient ParseRpcConfig r) = Some init_error /\
   (rpc (fst (initRpcClient NewClient ParseRpcConfig r)) = None \/
    rpc (fst (initRpcClient NewClient ParseRpcConfig r)) = rpc r)).
Proof.
  intros Hc unix_ok http_ok. subst unix_ok http_ok.
  unfold initRpcClient. rewrite Hc. change (eqs [] []) with true. cbn [negb].
  unfold connect, initUnixSockRpcClient, initHttpRpcClient.
  destruct (eqs (unixSock_path r) []) eqn:Eu; cbn [negb];
    [apply eqs_true in Eu | apply eqs_false in Eu];
    (destruct (NewClient unix_rpc_url) as [eu|] eqn:Nu);
    cbn [httpServer_url set_rpc httpServer_username httpServer_password];
    (destruct (eqs (httpServer_url r) []) eqn:Eh; cbn [negb];
     [apply eqs_true in Eh | apply eqs_false in Eh]);
    (destruct (NewClient (http_rpc_url (httpServer_url r))) as [eh|] eqn:Nh);
    (split; [intros [H1 H2]; try congruence; try reflexivity |
             split; [intros Hn [H1 H2]; try congruence;
                     try (eexists; reflexivity);
                     try (exfalso; apply Hn; split; congruence) |
                     intros Hn Hm; cbn [fst snd rpc set_rpc];
                     try (split; [reflexivity | auto]);
                     try (exfalso; apply Hm; split; congruence);
                     try (exfalso; apply Hn; split; congruence)]]).
Qed.

Lemma connect_http_auth (r : RpcClient) (url : gostring)
      (auth : option (gostring * gostring)) :
  rpc r = None ->
  rpc (fst (connect NewClient r)) = Some (http_client url auth) ->
  auth = if negb (eqs (httpServer_username r) [])
            && negb (eqs (httpServer_password r) [])
         then Some (httpServer_username r, httpServer_password r)
         else None.
Proof.
  intros Hr. unfold connect, initUnixSockRpcClient, initHttpRpcClient.
  destruct (negb (eqs (unixSock_path r) []));
    [destruct (NewClient unix_rpc_url)|];
    cbn [httpServer_url httpServer_username httpServer_password set_rpc];
    try (cbn [fst rpc set_rpc]; discriminate);
    (destruct (negb (eqs (httpServer_url r) []));
     [destruct (NewClient (http_rpc_url (httpServer_url r)))|]);
    cbn [fst rpc set_rpc]; rewrite ?Hr; try discriminate;
    intros E; inversion E; reflexivity.
Qed.

(** X19.  With a config file: a parse error is returned as it is and no
    client is built.  After a successful parse the password of the config
    file is not used anywhere: the result depends on the address, the user
    name and the socket path only, and an HTTP client built from the file
    authenticates, when the user name is not empty, with the user name as
    its password too. *)
Theorem config_file_credentials (r : RpcClient) (cfg : RpcConfig) (err : option error) :
  configFile r <> [] ->
  ParseRpcConfig (configFile r) = (cfg, err) ->
  (forall e, err = Some e ->
   initRpcClient NewClient ParseRpcConfig r = (r, Some e)) /\
  (err = None ->
   forall password,
     initRpcClient NewClient ParseRpcConfig r
     = initRpcClient NewClient
         (fun _ => ({| ServerUrl := ServerUrl cfg; Username := Username cfg;
                       Password := password; SockPath := SockPath cfg |}, None))
         r) /\
  (err = None -> rpc r = None ->
   forall url auth,
     rpc (fst (initRpcClient NewClient ParseRpcConfig r))
     = Some (http_client url auth) ->
     auth = if eqs (Username cfg) [] then None
            else Some (Username cfg, Username cfg)).
Proof.
  intros Hc Hp. apply eqs_false in Hc.
  unfold initRpcClient. rewrite Hc, Hp. cbn [negb]. split; [|split].
  - intros e ->. reflexivity.
  - intros -> password. reflexivity.
  - intros -> Hr url auth H.
    apply connect_http_auth in H; [|exact Hr].
    cbn [httpServer_username httpServer_password] in H. rewrite H.
    destruct (eqs (Username cfg) []); reflexivity.
Qed.

End ClientProperties.

Lemma http_scheme_is_optional_witness :
  NewRpcClient sample_NewClient sample_ParseRpcConfig
               (WithHttpServer (lit "http://" ++ lit "127.0.0.1:9001") [] [])
  = NewRpcClient sample_NewClient sample_ParseRpcConfig
                 (WithHttpServer (lit "127.0.0.1:9001") [] []).
Proof.
  exact (proj1 (http_scheme_is_optional sample_NewClient sample_ParseRpcConfig
                  (lit "127.0.0.1:9001") [] [] eq_refl)).
Defined.

Lemma connect_prefers_unix_socket_witness :
  initRpcClient sample_NewClient sample_ParseRpcConfig
                (WithUnixSock (lit "/run/supervisor.sock")
                   (WithHttpServer (lit "127.0.0.1:9001") [] [] zero_client))
  = (set_rpc (WithUnixSock (lit "/run/supervisor.sock")
                (WithHttpServer (lit "127.0.0.1:9001") [] [] zero_client))
             (Some (unix_client (lit "/run/supervisor.sock"))),
     None).
Proof.
  assert (H : lit "/run/supervisor.sock" <> []) by discriminate.
  exact (proj1 (connect_prefers_unix_socket sample_NewClient sample_ParseRpcConfig
                  (WithUnixSock (lit "/run/supervisor.sock")
                     (WithHttpServer (lit "127.0.0.1:9001") [] [] zero_client))
                  eq_refl)
           (conj H eq_refl)).
Defined.

Lemma config_file_credentials_witness :
  rpc (fst (NewRpcClient sample_NewClient sample_ParseRpcConfig
              WithDefaultConfigFile))
  = Some (http_client (http_rpc_url (lit "127.0.0.1:9001"))
            (Some (lit "admin", lit "admin"))) /\
  Some (lit "admin", lit "admin")
  = (if eqs (Username sample_config) [] then None
     else Some (Username sample_config, Username sample_config)).
Proof.
  assert (H : configFile (WithDefaultConfigFile zero_client) <> [])
    by discriminate.
  split; [reflexivity|].
  exact (proj2 (proj2 (config_file_credentials sample_NewClient
                         sample_ParseRpcConfig
                         (WithDefaultConfigFile zero_client) sample_config None
                         H eq_refl))
           eq_refl eq_refl
           (http_rpc_url (lit "127.0.0.1:9001"))
           (Some (lit "admin", lit "admin")) eq_refl).
Defined.

(** X20.  [openLogFile] on a file that can be opened, for an offset other
    than the smallest 64-bit integer: the reader starts at the last
    [|offset|] bytes of the file, at its first byte when the file is
    shorter, and at its end (nothing to read until the file grows) for
    offset 0; the sign of the offset makes no difference.  For the smallest
    64-bit integer the negation overflows and the seek fails. *)
Theorem openLogFile_reads_last_bytes
        (content : gostring) (seekErr : error) (offset : Z) :
  fits content ->
  (- 2 ^ 63 < offset < 2 ^ 63 ->
   openLogFile (inr content) (Some (len content)) seekErr offset
   = Returns (inr (last_bytes (Z.to_nat (Z.min (Z.abs offset) (len content)))
                              content))) /\
  (offset = - 2 ^ 63 ->
   openLogFile (inr content) (Some (len content)) seekErr offset
   = Returns (inl seekErr)).
Proof.
  unfold fits. intros Hf. pose proof (len_nonneg content) as Hl. split.
  - intros Ho. unfold openLogFile.
    assert (Ha : (if offset <? 0 then neg64 offset else offset) = Z.abs offset).
    { destruct (offset <? 0) eqn:E.
      - apply Z.ltb_lt in E. unfold neg64. rewrite wrap_id by (unfold int_range; lia).
        lia.
      - apply Z.ltb_ge in E. lia. }
    rewrite Ha.
    assert (Hm : (if len content <? Z.abs offset then len content else Z.abs offset)
                 = Z.min (Z.abs offset) (len content)).
    { destruct (len content <? Z.abs offset) eqn:E.
      - apply Z.ltb_lt in E. lia.
      - apply Z.ltb_ge in E. lia. }
    rewrite Hm. unfold neg64. rewrite wrap_id by (unfold int_range; lia).
    replace (len content + - Z.min (Z.abs offset) (len content) <? 0) with false
      by (symmetry; apply Z.ltb_ge; lia).
    unfold last_bytes, len in *. clear Ha Hm.
    match goal with
    | |- Returns (inr (skipn ?a _)) = Returns (inr (skipn ?b _)) =>
        replace a with b by lia
    end.
    reflexivity.
  - intros ->. unfold openLogFile.
    change (- 2 ^ 63 <? 0) with true. cbv iota.
    change (neg64 (- 2 ^ 63)) with (- 2 ^ 63).
    replace (len content <? - 2 ^ 63) with false
      by (symmetry; apply Z.ltb_ge; lia).
    change (neg64 (- 2 ^ 63)) with (- 2 ^ 63).
    replace (len content + - 2 ^ 63 <? 0) with true
      by (symmetry; apply Z.ltb_lt; lia).
    reflexivity.
Qed.

Lemma openLogFile_reads_last_bytes_witness :
  openLogFile (inr chunk_abc) (Some (len chunk_abc)) io_EOF (-2)
  = Returns (inr (line "c")) /\
  openLogFile (inr chunk_abc) (Some (len chunk_abc)) io_EOF 100
  = Returns (inr chunk_abc).
Proof.
  split.
  - exact (proj1 (openLogFile_reads_last_bytes chunk_abc io_EOF (-2) fits_chunk_abc)
             (conj eq_refl eq_refl)).
  - exact (proj1 (openLogFile_reads_last_bytes chunk_abc io_EOF 100 fits_chunk_abc)
             (conj eq_refl eq_refl)).
Defined.
